(** * Dots and Squares: the move engine and the computer player

    A shallow embedding of the game logic of [src/index.js] and of its
    sibling variant [src/unnamed/part_000], with the properties of the
    specification proved (or refuted) on it.

    Conventions of the embedding.
    - The module-level variable [gameState] becomes an explicit
      [GameState] threaded through every function; [isAiThinking] becomes
      a boolean argument or a field of [Globals].
    - JavaScript numbers used as indices are integers ([Z]); a read
      [a[i]] outside the array is [undefined], rendered by [None].
    - A computation is a value of [M A = option A].  [None] means that the
      execution leaves the modelled fragment: JavaScript raises a
      [TypeError] (indexing a missing row) or grows an array past its
      shape (assigning to a missing column).  [handleMove_wf] and its
      companions show that this never happens on a well-formed board. *)

From Stdlib Require Import ZArith Lia Bool String QArith Qround.
From stdpp Require Import base option list.

Open Scope Z_scope.

(** ** JavaScript values and arrays *)

(** The first argument of [handleMove] is compared with ['h'] by [===];
    only strings and [undefined] are needed. *)
Inductive JsValue :=
| JsUndefined
| JsString (s : string).

(** [type === 'h'] *)
Definition isHType (type : JsValue) : bool :=
  match type with
  | JsString s => String.eqb s "h"
  | JsUndefined => false
  end.

Definition M (A : Type) : Type := option A.

(** [a[i]] for an integer [i]; [None] is [undefined]. *)
Definition index {A} (a : list A) (i : Z) : option A :=
  if decide (0 ≤ i) then a !! Z.to_nat i else None.

(** Truthiness of [m[r][c]] on a matrix of booleans: a missing row raises,
    a missing column reads [undefined], which is falsy. *)
Definition truthyAt (m : list (list bool)) (r c : Z) : M bool :=
  rw ← index m r; Some (default false (index rw c)).

(** [m[r][c] = x]: a missing row raises; a missing column would grow the
    row, which the embedding does not follow. *)
Definition assignAt {A} (m : list (list A)) (r c : Z) (x : A)
  : M (list (list A)) :=
  rw ← index m r;
  if decide (0 ≤ c < Z.of_nat (length rw))
  then Some (<[Z.to_nat r := <[Z.to_nat c := x]> rw]> m)
  else None.

(** ** The session *)

Inductive Player := PLAYER_1 | PLAYER_2.

Global Instance Player_eq_dec : EqDecision Player.
Proof. solve_decision. Defined.

Definition other (p : Player) : Player :=
  match p with PLAYER_1 => PLAYER_2 | PLAYER_2 => PLAYER_1 end.

Record Scores := mkScores { score_PLAYER_1 : Z; score_PLAYER_2 : Z }.

Definition scoreOf (sc : Scores) (p : Player) : Z :=
  match p with
  | PLAYER_1 => score_PLAYER_1 sc
  | PLAYER_2 => score_PLAYER_2 sc
  end.

(** [scores[p] += 1] *)
Definition bump (sc : Scores) (p : Player) : Scores :=
  match p with
  | PLAYER_1 => mkScores (score_PLAYER_1 sc + 1) (score_PLAYER_2 sc)
  | PLAYER_2 => mkScores (score_PLAYER_1 sc) (score_PLAYER_2 sc + 1)
  end.

Record GameState := mkGameState {
  rows : Z;
  cols : Z;
  horizontalLines : list (list bool);
  verticalLines : list (list bool);
  squares : list (list (option Player));   (* [None] is [null] *)
  currentPlayer : Player;
  scores : Scores;
  isGameOver : bool;
  moveCount : Z
}.

(** [createInitialState(rows, cols)]; [Array(n)] needs a natural number.
    The callback of [map] builds a fresh array for every row, so no two
    rows are the same object and an assignment touches one cell only. *)
Definition createInitialState (rows cols : nat) : GameState :=
  {| rows := Z.of_nat rows;
     cols := Z.of_nat cols;
     horizontalLines := replicate (rows + 1) (replicate cols false);
     verticalLines := replicate rows (replicate (cols + 1) false);
     squares := replicate rows (replicate cols None);
     currentPlayer := PLAYER_1;
     scores := mkScores 0 0;
     isGameOver := false;
     moveCount := 0 |}.

Definition outsideGrid (s : GameState) (r c : Z) : Prop :=
  r < 0 ∨ r >= rows s ∨ c < 0 ∨ c >= cols s.

(** [squares[r][c] !== null], given the row. *)
Definition notNull (cell : option (option Player)) : bool :=
  match cell with
  | Some None => false
  | _ => true
  end.

(** [checkSquareCompletion(r, c)] *)
Definition checkSquareCompletion (s : GameState) (r c : Z) : M bool :=
  if decide (outsideGrid s r c) then Some false else
  sqrow ← index (squares s) r;
  if notNull (index sqrow c) then Some false else
  top ← truthyAt (horizontalLines s) r c;
  bottom ← truthyAt (horizontalLines s) (r + 1) c;
  left ← truthyAt (verticalLines s) r c;
  right ← truthyAt (verticalLines s) r (c + 1);
  Some (top && bottom && left && right).

(** [getSquareSideCount(r, c)] *)
Definition getSquareSideCount (s : GameState) (r c : Z) : M Z :=
  if decide (outsideGrid s r c) then Some (-1) else
  let sides := 0 in
  top ← truthyAt (horizontalLines s) r c;
  let sides := if top : bool then sides + 1 else sides in
  bottom ← truthyAt (horizontalLines s) (r + 1) c;
  let sides := if bottom : bool then sides + 1 else sides in
  left ← truthyAt (verticalLines s) r c;
  let sides := if left : bool then sides + 1 else sides in
  right ← truthyAt (verticalLines s) r (c + 1);
  let sides := if right : bool then sides + 1 else sides in
  Some sides.

(** ** The move engine *)

(** What a call of [handleMove] did: it returned early, before any
    assignment, or it ran to the end and left the state [s']. *)
Inductive MoveOutcome :=
| Rejected
| Accepted (s' : GameState).

Definition stateAfter (s : GameState) (o : MoveOutcome) : GameState :=
  match o with
  | Rejected => s
  | Accepted s' => s'
  end.

(** The bounds test of [handleMove], without its last disjunct. *)
Definition outOfBounds (s : GameState) (isH : bool) (r c : Z) : Prop :=
  if isH then r < 0 ∨ r > rows s ∨ c < 0 ∨ c >= cols s
  else r < 0 ∨ r >= rows s ∨ c < 0 ∨ c > cols s.

Global Instance outOfBounds_dec s isH r c : Decision (outOfBounds s isH r c).
Proof. unfold outOfBounds; destruct isH; apply _. Defined.

Definition linesOf (s : GameState) (isH : bool) : list (list bool) :=
  if isH then horizontalLines s else verticalLines s.

(** [lines[r][c] = true; gameState.moveCount++], [lines] aliasing one of
    the two matrices of the state. *)
Definition withLine (s : GameState) (isH : bool) (lines' : list (list bool))
  : GameState :=
  {| rows := rows s;
     cols := cols s;
     horizontalLines := if isH then lines' else horizontalLines s;
     verticalLines := if isH then verticalLines s else lines';
     squares := squares s;
     currentPlayer := currentPlayer s;
     scores := scores s;
     isGameOver := isGameOver s;
     moveCount := moveCount s + 1 |}.

Definition squaresToCheck (isH : bool) (r c : Z) : list (Z * Z) :=
  if isH then [(r - 1, c); (r, c)] else [(r, c - 1); (r, c)].

(** One iteration of the loop over [squaresToCheck]; the boolean is
    [completedAny]. *)
Definition claimStep (acc : GameState * bool) (sq : Z * Z)
  : M (GameState * bool) :=
  let '(s, completedAny) := acc in
  let '(sqR, sqC) := sq in
  done ← checkSquareCompletion s sqR sqC;
  if done : bool then
    squares' ← assignAt (squares s) sqR sqC (Some (currentPlayer s));
    Some ({| rows := rows s;
             cols := cols s;
             horizontalLines := horizontalLines s;
             verticalLines := verticalLines s;
             squares := squares';
             currentPlayer := currentPlayer s;
             scores := bump (scores s) (currentPlayer s);
             isGameOver := isGameOver s;
             moveCount := moveCount s |}, true)
  else Some (s, completedAny).

Fixpoint forEach {A B} (f : B → A → M B) (l : list A) (acc : B) : M B :=
  match l with
  | [] => Some acc
  | x :: l' => acc' ← f acc x; forEach f l' acc'
  end.

(** [squares.every(row => row.every(sq => sq !== null))] *)
Definition allOwned (sqs : list (list (option Player))) : bool :=
  forallb (forallb (λ sq, notNull (Some sq))) sqs.

(** The end of the move: turn alternation and the terminal test. *)
Definition finishMove (s : GameState) (completedAny : bool) : GameState :=
  {| rows := rows s;
     cols := cols s;
     horizontalLines := horizontalLines s;
     verticalLines := verticalLines s;
     squares := squares s;
     currentPlayer :=
       if completedAny then currentPlayer s else other (currentPlayer s);
     scores := scores s;
     isGameOver := allOwned (squares s);
     moveCount := moveCount s |}.

(** Lines 58-85 of [index.js], the same text as lines 30-57 of
    [part_000] (which writes the loop with [forEach]): everything after
    the guards on the session.  The calls to [render] and the scheduling
    of [triggerAi] that follow do not touch the session. *)
Definition moveBody (s : GameState) (type : JsValue) (r c : Z)
  : M MoveOutcome :=
  let isH := isHType type in
  let lines := linesOf s isH in
  taken ← (if decide (outOfBounds s isH r c) then Some true
           else truthyAt lines r c);
  if taken : bool then Some Rejected else
  lines' ← assignAt lines r c true;
  let s1 := withLine s isH lines' in
  '(s2, completedAny) ← forEach claimStep (squaresToCheck isH r c) (s1, false);
  Some (Accepted (finishMove s2 completedAny)).

(** The module-level variables. *)
Record Globals := mkGlobals {
  gameState : GameState;
  isAiThinking : bool
}.

(** ** The computer player *)

Record Move := mkMove { move_type : JsValue; move_r : Z; move_c : Z }.

(** [if (!lines[r][c]) moves.push({type, r, c})] *)
Definition pushFree (type : string) (lines : list (list bool)) (r : Z)
  (moves : list Move) (c : Z) : M (list Move) :=
  taken ← truthyAt lines r c;
  Some (if taken : bool then moves else moves ++ [mkMove (JsString type) r c]).

(** [for (r = 0; r < nr; r++) for (c = 0; c < nc; c++) ...] *)
Definition scanLines (type : string) (lines : list (list bool)) (nr nc : Z)
  (moves : list Move) : M (list Move) :=
  forEach (λ moves r, forEach (pushFree type lines r) (seqZ 0 nc) moves)
          (seqZ 0 nr) moves.

(** The two double loops that list the unclaimed edges, horizontal ones
    first; the same text in [fetchAiMove] and [triggerAi] of both files. *)
Definition availableMoves (s : GameState) : M (list Move) :=
  moves ← scanLines "h" (horizontalLines s) (rows s + 1) (cols s) [];
  scanLines "v" (verticalLines s) (rows s) (cols s + 1) moves.

(** A loop that stops at the first element satisfying [f] ([break], or
    the short cut of [some]). *)
Fixpoint anyM {A} (f : A → M bool) (l : list A) : M bool :=
  match l with
  | [] => Some false
  | x :: l' => b ← f x; if b : bool then Some true else anyM f l'
  end.

(** [l.every(f)] *)
Fixpoint allM {A} (f : A → M bool) (l : list A) : M bool :=
  match l with
  | [] => Some true
  | x :: l' => b ← f x; if b : bool then allM f l' else Some false
  end.

(** The first element satisfying [f], if any. *)
Fixpoint findM {A} (f : A → M bool) (l : list A) : M (option A) :=
  match l with
  | [] => Some None
  | x :: l' => b ← f x; if b : bool then Some (Some x) else findM f l'
  end.

(** [l.filter(f)] *)
Fixpoint filterM {A} (f : A → M bool) (l : list A) : M (list A) :=
  match l with
  | [] => Some []
  | x :: l' =>
      b ← f x; rest ← filterM f l';
      Some (if b : bool then x :: rest else rest)
  end.

Definition squaresOfMove (m : Move) : list (Z * Z) :=
  squaresToCheck (isHType (move_type m)) (move_r m) (move_c m).

(** The inner loop of step 1: some square next to [m] has three sides. *)
Definition completesSquare (s : GameState) (m : Move) : M bool :=
  anyM (λ '(sqR, sqC), n ← getSquareSideCount s sqR sqC;
                       Some (bool_decide (n = 3)))
       (squaresOfMove m).

(** The filter of step 2: every square next to [m] has fewer than two
    sides. *)
Definition isSafeMove (s : GameState) (m : Move) : M bool :=
  allM (λ '(sqR, sqC), n ← getSquareSideCount s sqR sqC;
                       Some (bool_decide (n < 2)))
       (squaresOfMove m).

(** [Math.floor(u * n)], [u] the value drawn by [Math.random()]. *)
Definition randomIndex (u : Q) (n : nat) : Z :=
  Qfloor (u * inject_Z (Z.of_nat n)).

(** [validTarget lines r c] is [lines[r] && lines[r][c] === false]. *)
Definition validTarget (lines : list (list bool)) (r c : Z) : bool :=
  match index lines r with
  | None => false
  | Some rw =>
      match index rw c with
      | Some false => true
      | _ => false
      end
  end.

(** [window.makeMove] acting on the module-level variables through a
    [handleMove]. *)
Definition runMove (handle : GameState → JsValue → Z → Z → M MoveOutcome)
  (g : Globals) (type : JsValue) (r c : Z) : M Globals :=
  o ← handle (gameState g) type r c;
  Some {| gameState := stateAfter (gameState g) o;
          isAiThinking := isAiThinking g |}.

(** [src/index.js] *)
Module IndexJs.

Definition handleMove (s : GameState) (type : JsValue) (r c : Z)
  : M MoveOutcome :=
  if isGameOver s then Some Rejected else moveBody s type r c.

Definition makeMove : Globals → JsValue → Z → Z → M Globals :=
  runMove handleMove.

(** [fetchAiMove()].  [haveKey] tells whether [process.env.API_KEY] is
    set; [reply] is what the remote call and [JSON.parse] produced,
    [None] when either raised (the [catch] branch).  The statistics
    gathered for the prompt do not influence the result. *)
Definition fetchAiMove (s : GameState) (haveKey : bool)
  (reply : option Move) : M (option Move) :=
  if negb haveKey then Some None else
  available ← availableMoves s;
  if decide (length available = 0%nat) then Some None else
  match reply with
  | None => Some None
  | Some move =>
      let lines := linesOf s (isHType (move_type move)) in
      if validTarget lines (move_r move) (move_c move)
      then Some (Some move)
      else Some None
  end.

(** The local strategy of [triggerAi] (lines 171-200), run when
    [fetchAiMove] gave no move; [u] is the value of [Math.random()].
    The result [None] is a move that is [null] or [undefined]. *)
Definition localFallback (s : GameState) (u : Q) : M (option Move) :=
  moves ← availableMoves s;
  first ← findM (completesSquare s) moves;
  match first with
  | Some m => Some (Some m)
  | None =>
      safeMoves ← filterM (isSafeMove s) moves;
      Some (if decide (0 < length safeMoves)%nat
            then index safeMoves (randomIndex u (length safeMoves))
            else index moves 0)
  end.

(** [triggerAi()], with the session untouched while the call to the
    oracle is pending.  An exception of [fetchAiMove] is swallowed by
    the empty [catch]. *)
Definition triggerAi (g : Globals) (haveKey : bool) (reply : option Move)
  (u : Q) : M Globals :=
  if isAiThinking g then Some g else
  let s := gameState g in
  let fetched := default None (fetchAiMove s haveKey reply) in
  move ← match fetched with
         | Some m => Some (Some m)
         | None => localFallback s u
         end;
  match move with
  | Some m =>
      runMove handleMove {| gameState := s; isAiThinking := false |}
              (move_type m) (move_r m) (move_c m)
  | None => Some {| gameState := s; isAiThinking := false |}
  end.

End IndexJs.

(** [src/unnamed/part_000] *)
Module Part000.

Definition handleMove (thinking : bool) (s : GameState) (type : JsValue)
  (r c : Z) : M MoveOutcome :=
  if isGameOver s then Some Rejected else
  if thinking && bool_decide (currentPlayer s = PLAYER_1)
  then Some Rejected
  else moveBody s type r c.

(** [window.makeMove]: [handleMove] on the module-level variables,
    with its last lines (60-62).  After an accepted move, when PLAYER_2
    is to move, the game goes on and the computer is not thinking,
    [triggerAi()] is called at once: before control returns it sets
    [isAiThinking] (line 138) and sends the next request to the oracle;
    the rest of that turn runs when the oracle has answered. *)
Definition makeMove (g : Globals) (type : JsValue) (r c : Z) : M Globals :=
  o ← handleMove (isAiThinking g) (gameState g) type r c;
  Some match o with
       | Rejected => g
       | Accepted s' =>
           {| gameState := s';
              isAiThinking :=
                if bool_decide (currentPlayer s' = PLAYER_2)
                   && negb (isGameOver s') && negb (isAiThinking g)
                then true else isAiThinking g |}
       end.

(** How a call of [fetchAiMove] ends. *)
Inductive Fetched :=
| Returned (move : option Move)
| Threw.

(** [fetchAiMove(retryCount)], with [retries = 1 - retryCount] attempts
    left after this one.  [haveKey] tells whether [process.env.API_KEY]
    is set: without it [new GoogleGenAI] raises (line 79), before the
    list of moves is built and outside the [try], so that nothing is
    retried.  [oracle n] is what the remote call and [JSON.parse]
    produce at the attempt numbered [n], [None] when either raised. *)
Fixpoint fetchAiMoveFrom (retries : nat) (s : GameState) (haveKey : bool)
  (oracle : Z → option Move) (retryCount : Z) : M Fetched :=
  if negb haveKey then Some Threw else
  available ← availableMoves s;
  if decide (length available = 0%nat) then Some (Returned None) else
  match oracle retryCount with
  | Some move =>
      let lines := linesOf s (isHType (move_type move)) in
      if validTarget lines (move_r move) (move_c move)
      then Some (Returned (Some move))
      else Some (Returned (index available 0))
  | None =>
      match retries with
      | S retries' =>
          fetchAiMoveFrom retries' s haveKey oracle (retryCount + 1)
      | O => Some Threw
      end
  end.

Definition fetchAiMove (s : GameState) (haveKey : bool)
  (oracle : Z → option Move) (retryCount : Z) : M Fetched :=
  fetchAiMoveFrom (Z.to_nat (1 - retryCount)) s haveKey oracle retryCount.

(** One turn of the computer: [triggerAi()] from its call to the end of
    its continuation, with the session untouched while the call to the
    oracle is pending.  The move of [fetchAiMove] is played, and a
    random unclaimed edge when it threw; the [handleMove] that plays it
    starts the next turn when the computer is to move again (see
    [makeMove]), so that [isAiThinking] is then true at the end. *)
Definition triggerAi (g : Globals) (haveKey : bool)
  (oracle : Z → option Move) (u : Q) : M Globals :=
  let s := gameState g in
  let idle := {| gameState := s; isAiThinking := false |} in
  fetched ← fetchAiMove s haveKey oracle 0;
  match fetched with
  | Returned (Some m) => makeMove idle (move_type m) (move_r m) (move_c m)
  | Returned None => Some idle
  | Threw =>
      moves ← availableMoves s;
      if decide (0 < length moves)%nat then
        match index moves (randomIndex u (length moves)) with
        | Some m => makeMove idle (move_type m) (move_r m) (move_c m)
        | None => None
        end
      else Some idle
  end.

End Part000.

(** ** Views of a session used in the statements *)

(** The cell [(r, c)] of [m], when it exists. *)
Definition get {A} (m : list (list A)) (r c : Z) : option A :=
  rw ← index m r; index rw c.

(** [m] has [nr] rows of [nc] cells each. *)
Definition shaped {A} (m : list (list A)) (nr nc : Z) : Prop :=
  Z.of_nat (length m) = nr ∧ Forall (λ rw, Z.of_nat (length rw) = nc) m.

(** The three matrices have the shapes [createInitialState] gives them. *)
Record wf (s : GameState) : Prop := mkWf {
  wf_rows : 0 ≤ rows s;
  wf_cols : 0 ≤ cols s;
  wf_horizontal : shaped (horizontalLines s) (rows s + 1) (cols s);
  wf_vertical : shaped (verticalLines s) (rows s) (cols s + 1);
  wf_squares : shaped (squares s) (rows s) (cols s)
}.

(** The shape of the matrix [linesOf s isH]. *)
Definition lineRows (s : GameState) (isH : bool) : Z :=
  if isH then rows s + 1 else rows s.

Definition lineCols (s : GameState) (isH : bool) : Z :=
  if isH then cols s else cols s + 1.

(** The bounds that the specification states for the edge [(isH, r, c)]:
    rows 0 to [rows] and columns 0 to [cols - 1] for a horizontal edge,
    rows 0 to [rows - 1] and columns 0 to [cols] for a vertical one. *)
Definition withinBounds (s : GameState) (isH : bool) (r c : Z) : Prop :=
  if isH then 0 ≤ r ≤ rows s ∧ 0 ≤ c < cols s
  else 0 ≤ r < rows s ∧ 0 ≤ c ≤ cols s.

Definition inGrid (s : GameState) (r c : Z) : Prop :=
  0 ≤ r < rows s ∧ 0 ≤ c < cols s.

(** The edge [(isH, r, c)] is claimed. *)
Definition edgeAt (s : GameState) (isH : bool) (r c : Z) : bool :=
  default false (get (linesOf s isH) r c).

(** The owner of the square [(r, c)]; [None] where there is none. *)
Definition ownerAt (s : GameState) (r c : Z) : option Player :=
  default None (get (squares s) r c).

Definition b2z (b : bool) : Z := if b then 1 else 0.

(** The number of claimed sides of the square [(r, c)]. *)
Definition sidesOf (s : GameState) (r c : Z) : Z :=
  b2z (edgeAt s true r c) + b2z (edgeAt s true (r + 1) c) +
  b2z (edgeAt s false r c) + b2z (edgeAt s false r (c + 1)).

(** What [getSquareSideCount] answers on a well-formed session. *)
Definition sideCount (s : GameState) (i j : Z) : Z :=
  if decide (inGrid s i j) then sidesOf s i j else -1.

(** The four sides of the square [(r, c)] are claimed. *)
Definition complete (s : GameState) (r c : Z) : bool :=
  edgeAt s true r c && edgeAt s true (r + 1) c &&
  edgeAt s false r c && edgeAt s false r (c + 1).

(** What [checkSquareCompletion] answers on a well-formed session. *)
Definition claims (s : GameState) (r c : Z) : bool :=
  bool_decide (inGrid s r c) && bool_decide (ownerAt s r c = None)
  && complete s r c.

Definition sumWith {A} (g : A → Z) (l : list A) : Z :=
  foldr (λ x n, g x + n) 0 l.

(** The number of cells of [m] that satisfy [f]. *)
Definition countRow {A} (f : A → bool) (rw : list A) : Z :=
  sumWith (λ x, b2z (f x)) rw.

Definition countCells {A} (f : A → bool) (m : list (list A)) : Z :=
  sumWith (countRow f) m.

(** [count(squareOwner != null)] *)
Definition ownedCount (s : GameState) : Z :=
  countCells (λ sq, notNull (Some sq)) (squares s).

Definition ownedBy (s : GameState) (p : Player) : Z :=
  countCells (λ sq, bool_decide (sq = Some p)) (squares s).

(** ** Views of a move *)

(** Everything but the owners and the scores is the same. *)
Record sameBoard (s s' : GameState) : Prop := mkSameBoard {
  sb_rows : rows s' = rows s;
  sb_cols : cols s' = cols s;
  sb_horizontal : horizontalLines s' = horizontalLines s;
  sb_vertical : verticalLines s' = verticalLines s;
  sb_player : currentPlayer s' = currentPlayer s;
  sb_over : isGameOver s' = isGameOver s;
  sb_moveCount : moveCount s' = moveCount s
}.

(** The squares that the loop of [handleMove] gives to the mover, as a
    function of the session [s1] it starts from. *)
Definition claimedIn (s1 : GameState) (l : list (Z * Z)) (i j : Z) : bool :=
  bool_decide ((i, j) ∈ l) && claims s1 i j.

Definition claimedCount (s1 : GameState) (l : list (Z * Z)) : Z :=
  sumWith (λ sq, b2z (claims s1 sq.1 sq.2)) l.

(** The square [(i, j)] was unowned in [s] and has its four sides in [s']. *)
Definition fills (s s' : GameState) (i j : Z) : bool :=
  bool_decide (inGrid s i j) && bool_decide (ownerAt s i j = None)
  && complete s' i j.

(** The squares completed by the move [(isH, r, c)] that leads from [s]
    to [s']: as a test, as a number and as a list. *)
Definition completedBy (s s' : GameState) (isH : bool) (r c : Z) (i j : Z)
  : bool :=
  bool_decide ((i, j) ∈ squaresToCheck isH r c) && fills s s' i j.

Definition completedCount (s s' : GameState) (isH : bool) (r c : Z) : Z :=
  sumWith (λ sq, b2z (fills s s' sq.1 sq.2)) (squaresToCheck isH r c).

Definition completedSquares (s s' : GameState) (isH : bool) (r c : Z)
  : list (Z * Z) :=
  filter (λ sq, fills s s' sq.1 sq.2 = true) (squaresToCheck isH r c).

(** What an accepted move [(isH, r, c)] from [s] to [s'] does. *)
Record accepted (s : GameState) (isH : bool) (r c : Z) (s' : GameState)
  : Prop := mkAccepted {
  acc_bounds : ¬ outOfBounds s isH r c;
  acc_free : edgeAt s isH r c = false;
  acc_wf : wf s';
  acc_rows : rows s' = rows s;
  acc_cols : cols s' = cols s;
  acc_edge : ∀ h i j,
    edgeAt s' h i j = bool_decide (h = isH ∧ i = r ∧ j = c) || edgeAt s h i j;
  acc_owner : ∀ i j,
    ownerAt s' i j =
    if completedBy s s' isH r c i j then Some (currentPlayer s)
    else ownerAt s i j;
  acc_scores : ∀ p,
    scoreOf (scores s') p =
    scoreOf (scores s) p +
    if decide (p = currentPlayer s) then completedCount s s' isH r c else 0;
  acc_ownedBy : ∀ p,
    ownedBy s' p =
    ownedBy s p +
    if decide (p = currentPlayer s) then completedCount s s' isH r c else 0;
  acc_turn :
    currentPlayer s' =
    if decide (completedCount s s' isH r c = 0) then other (currentPlayer s)
    else currentPlayer s;
  acc_over : isGameOver s' = allOwned (squares s');
  acc_moveCount : moveCount s' = moveCount s + 1
}.

(** ** Runs of the move engine *)

(** The sessions of [index.js]: a fresh board and what accepted moves
    make of it. *)
Inductive reachable (nr nc : nat) : GameState → Prop :=
| reach_init : reachable nr nc (createInitialState nr nc)
| reach_move s type r c s' :
    reachable nr nc s →
    IndexJs.handleMove s type r c = Some (Accepted s') →
    reachable nr nc s'.

Definition typeH : JsValue := JsString "h".
Definition typeV : JsValue := JsString "v".

(** A sequence of calls [handleMove(m.type, m.r, m.c)] of [index.js]. *)
Definition calls (s : GameState) (ms : list Move) : M GameState :=
  forEach (λ s m, o ← IndexJs.handleMove s (move_type m) (move_r m) (move_c m);
                  Some (stateAfter s o)) ms s.

(** ** Views of the computer player *)

(** The unclaimed edges of the matrix [lines], row by row. *)
Definition freeEdges (type : string) (lines : list (list bool)) (nr nc : Z)
  : list Move :=
  r ← seqZ 0 nr;
  mkMove (JsString type) r
    <$> filter (λ c, default false (get lines r c) = false) (seqZ 0 nc).

(** [m] is an edge of the board that nobody has claimed. *)
Definition unclaimedEdge (s : GameState) (m : Move) : Prop :=
  (move_type m = typeH ∨ move_type m = typeV) ∧
  withinBounds s (isHType (move_type m)) (move_r m) (move_c m) ∧
  edgeAt s (isHType (move_type m)) (move_r m) (move_c m) = false.


(** What [completesSquare] and [isSafeMove] answer on a well-formed
    session. *)
Definition touchesThree (s : GameState) (m : Move) : bool :=
  existsb (λ sq, bool_decide (sideCount s sq.1 sq.2 = 3)) (squaresOfMove m).

Definition safeMove (s : GameState) (m : Move) : bool :=
  forallb (λ sq, bool_decide (sideCount s sq.1 sq.2 < 2)) (squaresOfMove m).

(** ** Sample sessions *)

(** One square with its top, left and right sides claimed. *)
Definition threeSides : GameState :=
  {| rows := 1; cols := 1;
     horizontalLines := [[true]; [false]];
     verticalLines := [[true; true]];
     squares := [[None]];
     currentPlayer := PLAYER_2;
     scores := mkScores 0 0;
     isGameOver := false;
     moveCount := 3 |}.

(** Two squares side by side, every edge claimed but the one between. *)
Definition doubleCross : GameState :=
  {| rows := 1; cols := 2;
     horizontalLines := [[true; true]; [true; true]];
     verticalLines := [[true; false; true]];
     squares := [[None; None]];
     currentPlayer := PLAYER_1;
     scores := mkScores 0 0;
     isGameOver := false;
     moveCount := 6 |}.

(** A board of two by two squares on which the square (0, 0) has its top
    and left sides claimed. *)
Definition twoSides : GameState :=
  {| rows := 2; cols := 2;
     horizontalLines := [[true; false]; [false; false]; [false; false]];
     verticalLines := [[true; false; false]; [false; false; false]];
     squares := [[None; None]; [None; None]];
     currentPlayer := PLAYER_1;
     scores := mkScores 0 0;
     isGameOver := false;
     moveCount := 2 |}.

(** ** The rest of the two files *)

(** A line button written by [render]: the move that its [onclick]
    passes to [window.makeMove], and its [disabled] attribute. *)
Record Button := mkButton { onclick : Move; disabled : bool }.

(** One of the two loops of [render] over a matrix of lines,
    [lines.forEach((row, r) => row.forEach((active, c) => ...))], the
    same text in both files. *)
Definition buttonsOf (type : string) (g : Globals) (lines : list (list bool))
  : list Button :=
  let isP1 := bool_decide (currentPlayer (gameState g) = PLAYER_1) in
  mjoin (imap (λ r row,
    imap (λ c (active : bool),
      let canClick :=
        negb active && isP1 && negb (isAiThinking g)
        && negb (isGameOver (gameState g)) in
      mkButton (mkMove (JsString type) (Z.of_nat r) (Z.of_nat c))
               (negb canClick)) row) lines).

Definition lineButtons (g : Globals) : list Button :=
  buttonsOf "h" g (horizontalLines (gameState g)) ++
  buttonsOf "v" g (verticalLines (gameState g)).

(** The text that [showGameOver] writes into [winner-text]. *)
Definition winnerText (s : GameState) : string :=
  if decide (score_PLAYER_2 (scores s) < score_PLAYER_1 (scores s))
  then "You Won!"
  else if decide (score_PLAYER_1 (scores s) < score_PLAYER_2 (scores s))
  then "AI Wins!"
  else "It's a Tie!".

(** The number of edges of a board of [nr] by [nc] squares. *)
Definition totalEdges (nr nc : nat) : Z :=
  (Z.of_nat nr + 1) * Z.of_nat nc + Z.of_nat nr * (Z.of_nat nc + 1).

(** The numbers of claimed and of unclaimed edges. *)
Definition edgesClaimed (s : GameState) : Z :=
  countCells (λ b : bool, b) (horizontalLines s) +
  countCells (λ b : bool, b) (verticalLines s).

Definition edgesFree (s : GameState) : Z :=
  countCells negb (horizontalLines s) + countCells negb (verticalLines s).

(** One square with its top and left sides claimed. *)
Definition corner : GameState :=
  {| rows := 1; cols := 1;
     horizontalLines := [[true]; [false]];
     verticalLines := [[true; false]];
     squares := [[None]];
     currentPlayer := PLAYER_1;
     scores := mkScores 0 0;
     isGameOver := false;
     moveCount := 2 |}.

(** [s'] keeps the size of [s], its claimed edges and its owners. *)
Record extends (s s' : GameState) : Prop := mkExtends {
  ext_wf : wf s';
  ext_rows : rows s' = rows s;
  ext_cols : cols s' = cols s;
  ext_edge : ∀ isH r c, edgeAt s isH r c = true → edgeAt s' isH r c = true;
  ext_owner : ∀ i j p, ownerAt s i j = Some p → ownerAt s' i j = Some p
}.

(** ** The squares closed by a move, read on the lines alone *)

(** The squares of the board, row by row. *)
Definition gridSquares (s : GameState) : list (Z * Z) :=
  i ← seqZ 0 (rows s);
  pair i <$> seqZ 0 (cols s).

(** The four sides of the square [(i, j)] are claimed in [s'] and were
    not all claimed in [s]. *)
Definition closedBy (s s' : GameState) (i j : Z) : bool :=
  complete s' i j && negb (complete s i j).

(** The number of squares of the board closed between [s] and [s']. *)
Definition closedCount (s s' : GameState) : Z :=
  sumWith (λ sq, b2z (closedBy s s' sq.1 sq.2)) (gridSquares s).

(** * Arrays of arrays *)

Lemma index_Some {A} (l : list A) i x :
  index l i = Some x ↔ 0 ≤ i ∧ l !! Z.to_nat i = Some x.
Proof.
  unfold index. destruct (decide (0 ≤ i)); split; try done.
  - by intros [? ?].
  - by intros [? ?].
Qed.

Lemma index_range {A} (l : list A) i x :
  index l i = Some x → 0 ≤ i < Z.of_nat (length l).
Proof.
  rewrite index_Some. intros [Hi Hl]. apply lookup_lt_Some in Hl. lia.
Qed.

Lemma index_is_Some {A} (l : list A) i :
  0 ≤ i < Z.of_nat (length l) → is_Some (index l i).
Proof.
  intros Hi. unfold index. rewrite decide_True by lia.
  apply lookup_lt_is_Some. lia.
Qed.

Lemma index_outside {A} (l : list A) i :
  ¬ 0 ≤ i < Z.of_nat (length l) → index l i = None.
Proof.
  intros Hi. destruct (index l i) eqn:E; [|done].
  apply index_range in E. lia.
Qed.

Lemma index_insert {A} (l : list A) i j x :
  0 ≤ i < Z.of_nat (length l) →
  index (<[Z.to_nat i := x]> l) j = if decide (j = i) then Some x else index l j.
Proof.
  intros Hi. unfold index.
  destruct (decide (0 ≤ j)), (decide (j = i)); subst; try lia; try done.
  - apply list_lookup_insert_eq. lia.
  - apply list_lookup_insert_ne. lia.
Qed.

Section Matrix.
Context {A : Type}.
Implicit Types (rw : list A) (m : list (list A)) (x : A).

Lemma shaped_row m nr nc r rw :
  shaped m nr nc → index m r = Some rw →
  Z.of_nat (length rw) = nc ∧ 0 ≤ r < nr.
Proof.
  intros [Hlen Hrows] Hr. split.
  - apply index_Some in Hr as [_ Hr].
    by apply (Forall_lookup_1 _ _ _ _ Hrows Hr).
  - apply index_range in Hr. lia.
Qed.

Lemma shaped_index m nr nc r :
  shaped m nr nc → 0 ≤ r < nr →
  ∃ rw, index m r = Some rw ∧ Z.of_nat (length rw) = nc.
Proof.
  intros Hm Hr. destruct (index_is_Some m r) as [rw Hrw].
  { destruct Hm. lia. }
  exists rw. split; [done|]. by destruct (shaped_row _ _ _ _ _ Hm Hrw).
Qed.

Lemma shaped_get m nr nc r c :
  shaped m nr nc → 0 ≤ r < nr → 0 ≤ c < nc → is_Some (get m r c).
Proof.
  intros Hm Hr Hc. destruct (shaped_index _ _ _ _ Hm Hr) as (rw & Hrw & Hlen).
  unfold get. rewrite Hrw. simpl. apply index_is_Some. lia.
Qed.

Lemma get_inside m nr nc r c x :
  shaped m nr nc → get m r c = Some x → 0 ≤ r < nr ∧ 0 ≤ c < nc.
Proof.
  intros Hm Hg. unfold get in Hg.
  destruct (index m r) as [rw|] eqn:Hrw; [|done]. simpl in Hg.
  destruct (shaped_row _ _ _ _ _ Hm Hrw) as [Hlen Hr].
  apply index_range in Hg. lia.
Qed.

Lemma assignAt_total m nr nc r c x :
  shaped m nr nc → 0 ≤ r < nr → 0 ≤ c < nc → is_Some (assignAt m r c x).
Proof.
  intros Hm Hr Hc. destruct (shaped_index _ _ _ _ Hm Hr) as (rw & Hrw & Hlen).
  unfold assignAt. rewrite Hrw. simpl. rewrite decide_True by lia. eauto.
Qed.

Lemma assignAt_inv m r c x m' :
  assignAt m r c x = Some m' →
  ∃ rw, index m r = Some rw ∧ 0 ≤ c < Z.of_nat (length rw) ∧
        m' = <[Z.to_nat r := <[Z.to_nat c := x]> rw]> m.
Proof.
  unfold assignAt. destruct (index m r) as [rw|]; [|done]. simpl.
  case_decide; [|done]. intros [= <-]. eauto.
Qed.

Lemma assignAt_shaped m nr nc r c x m' :
  shaped m nr nc → assignAt m r c x = Some m' → shaped m' nr nc.
Proof.
  intros Hm (rw & Hrw & Hc & ->)%assignAt_inv.
  destruct (shaped_row _ _ _ _ _ Hm Hrw) as [Hlen Hr].
  destruct Hm as [Hl Hrows]. split.
  - by rewrite length_insert.
  - apply Forall_insert; [done|]. by rewrite length_insert.
Qed.

Lemma assignAt_get m r c x m' i j :
  assignAt m r c x = Some m' →
  get m' i j = if decide (i = r ∧ j = c) then Some x else get m i j.
Proof.
  intros (rw & Hrw & Hc & ->)%assignAt_inv.
  pose proof (index_range _ _ _ Hrw) as Hr.
  unfold get. rewrite index_insert by done.
  destruct (decide (i = r)) as [->|Hne]; simpl.
  - rewrite index_insert by done. rewrite Hrw. simpl.
    destruct (decide (j = c)) as [->|Hne].
    + by rewrite decide_True.
    + rewrite decide_False; [done|]. by intros [_ ?].
  - rewrite decide_False; [done|]. by intros [? _].
Qed.

End Matrix.

Lemma truthyAt_get (b : list (list bool)) nr nc r c :
  shaped b nr nc → 0 ≤ r < nr →
  truthyAt b r c = Some (default false (get b r c)).
Proof.
  intros Hm Hr. destruct (shaped_index _ _ _ _ Hm Hr) as (rw & Hrw & _).
  unfold truthyAt, get. by rewrite Hrw.
Qed.

(** * Well-formed sessions *)

Lemma shaped_replicate {A} (x : A) (nr nc : nat) :
  shaped (replicate nr (replicate nc x)) (Z.of_nat nr) (Z.of_nat nc).
Proof.
  split.
  - by rewrite length_replicate.
  - apply Forall_replicate. by rewrite length_replicate.
Qed.

Lemma wf_createInitialState nr nc : wf (createInitialState nr nc).
Proof.
  split; simpl; try lia.
  - replace (Z.of_nat nr + 1) with (Z.of_nat (nr + 1)) by lia.
    apply shaped_replicate.
  - replace (Z.of_nat nc + 1) with (Z.of_nat (nc + 1)) by lia.
    apply shaped_replicate.
  - apply shaped_replicate.
Qed.

Lemma wf_lines s isH :
  wf s → shaped (linesOf s isH) (lineRows s isH) (lineCols s isH).
Proof. intros Hs. destruct isH; simpl; apply Hs. Qed.

Lemma inBounds_range s isH r c :
  wf s → ¬ outOfBounds s isH r c ↔
         0 ≤ r < lineRows s isH ∧ 0 ≤ c < lineCols s isH.
Proof. intros Hs. unfold outOfBounds. destruct isH; simpl; lia. Qed.

Lemma truthyAt_edge s isH r c :
  wf s → 0 ≤ r < lineRows s isH →
  truthyAt (linesOf s isH) r c = Some (edgeAt s isH r c).
Proof.
  intros Hs Hr. by rewrite (truthyAt_get _ _ _ _ _ (wf_lines s isH Hs) Hr).
Qed.

Lemma truthyAt_horizontal s r c :
  wf s → 0 ≤ r < rows s + 1 →
  truthyAt (horizontalLines s) r c = Some (edgeAt s true r c).
Proof. apply (truthyAt_edge s true). Qed.

Lemma truthyAt_vertical s r c :
  wf s → 0 ≤ r < rows s →
  truthyAt (verticalLines s) r c = Some (edgeAt s false r c).
Proof. apply (truthyAt_edge s false). Qed.

Lemma outsideGrid_inGrid s r c : ¬ outsideGrid s r c ↔ inGrid s r c.
Proof. unfold outsideGrid, inGrid. lia. Qed.

Lemma squares_cell s r c :
  wf s → inGrid s r c →
  ∃ sqrow, index (squares s) r = Some sqrow ∧
           index sqrow c = Some (ownerAt s r c).
Proof.
  intros Hs [Hr Hc].
  destruct (shaped_index _ _ _ _ (wf_squares s Hs) Hr) as (sqrow & Hrow & Hlen).
  exists sqrow. split; [done|].
  destruct (index_is_Some sqrow c) as [cell Hcell]; [lia|].
  unfold ownerAt, get. rewrite Hrow. simpl. by rewrite Hcell.
Qed.

Lemma checkSquareCompletion_wf s r c :
  wf s →
  checkSquareCompletion s r c =
  Some (bool_decide (inGrid s r c) && bool_decide (ownerAt s r c = None)
        && complete s r c).
Proof.
  intros Hs. unfold checkSquareCompletion.
  destruct (decide (outsideGrid s r c)) as [Hout|Hin].
  - rewrite bool_decide_eq_false_2; [done|].
    by rewrite <- outsideGrid_inGrid; intros ?.
  - apply outsideGrid_inGrid in Hin.
    rewrite bool_decide_eq_true_2 by done.
    destruct (squares_cell s r c Hs Hin) as (sqrow & -> & Hcell). simpl.
    rewrite Hcell. destruct Hin as [Hr Hc].
    destruct (ownerAt s r c) as [p|]; simpl; [done|].
    rewrite (truthyAt_horizontal s r c), (truthyAt_horizontal s (r + 1) c),
      (truthyAt_vertical s r c), (truthyAt_vertical s r (c + 1));
      simpl; try done; lia.
Qed.

Lemma getSquareSideCount_wf s r c :
  wf s →
  getSquareSideCount s r c =
  Some (if decide (inGrid s r c) then sidesOf s r c else -1).
Proof.
  intros Hs. unfold getSquareSideCount.
  destruct (decide (outsideGrid s r c)) as [Hout|Hin].
  - rewrite decide_False; [done|]. by rewrite <- outsideGrid_inGrid; intros ?.
  - apply outsideGrid_inGrid in Hin. rewrite decide_True by done.
    destruct Hin as [Hr Hc].
    rewrite (truthyAt_horizontal s r c), (truthyAt_horizontal s (r + 1) c),
      (truthyAt_vertical s r c), (truthyAt_vertical s r (c + 1));
      simpl; try done; try lia.
    unfold sidesOf, b2z. f_equal.
    destruct (edgeAt s true r c), (edgeAt s true (r + 1) c),
      (edgeAt s false r c), (edgeAt s false r (c + 1)); reflexivity.
Qed.

(** * Counting cells *)

Lemma sumWith_insert {A} (g : A → Z) (l : list A) (i : nat) (old x : A) :
  l !! i = Some old → sumWith g (<[i:=x]> l) = sumWith g l - g old + g x.
Proof.
  revert i. induction l as [|y l IH]; intros [|i] Hi; simplify_eq/=.
  - lia.
  - rewrite (IH i Hi). lia.
Qed.

Lemma sumWith_ext {A} (g g' : A → Z) (l : list A) :
  (∀ x, x ∈ l → g x = g' x) → sumWith g l = sumWith g' l.
Proof.
  induction l as [|y l IH]; intros Hg; simpl; [done|].
  rewrite Hg by left. rewrite IH; [done|]. intros x Hx. apply Hg. by right.
Qed.

Lemma sumWith_plus {A} (g g' : A → Z) (l : list A) :
  sumWith (λ x, g x + g' x) l = sumWith g l + sumWith g' l.
Proof. induction l as [|y l IH]; simpl; lia. Qed.

Lemma countCells_assignAt {A} (f : A → bool) (m m' : list (list A)) r c old x :
  get m r c = Some old → assignAt m r c x = Some m' →
  countCells f m' = countCells f m - b2z (f old) + b2z (f x).
Proof.
  intros Hget (rw & Hrw & Hc & ->)%assignAt_inv.
  unfold get in Hget. rewrite Hrw in Hget. simpl in Hget.
  apply index_Some in Hrw as [Hr Hrw]. apply index_Some in Hget as [_ Hget].
  unfold countCells. rewrite (sumWith_insert _ _ _ rw) by done.
  unfold countRow at 3. rewrite (sumWith_insert _ _ _ old) by done.
  fold (countRow f rw). lia.
Qed.

Lemma ownedCount_split s :
  ownedCount s = ownedBy s PLAYER_1 + ownedBy s PLAYER_2.
Proof.
  unfold ownedCount, ownedBy, countCells.
  rewrite <- sumWith_plus. apply sumWith_ext. intros rw _.
  unfold countRow. rewrite <- sumWith_plus. apply sumWith_ext.
  by intros [[]|] _.
Qed.

(** * The loop over the adjacent squares *)

Lemma get_squares s r c :
  wf s → inGrid s r c → get (squares s) r c = Some (ownerAt s r c).
Proof.
  intros Hs Hin. destruct Hin as [Hr Hc].
  destruct (shaped_get _ _ _ r c (wf_squares s Hs) Hr Hc) as [cell Hcell].
  unfold ownerAt. by rewrite Hcell.
Qed.

Lemma scoreOf_bump sc q p :
  scoreOf (bump sc q) p = scoreOf sc p + if decide (p = q) then 1 else 0.
Proof. destruct q, p; simpl; lia. Qed.

Lemma claims_inv s r c :
  claims s r c = true →
  inGrid s r c ∧ ownerAt s r c = None ∧ complete s r c = true.
Proof.
  unfold claims. rewrite !andb_true_iff, !bool_decide_eq_true. tauto.
Qed.

Lemma sameBoard_refl s : sameBoard s s.
Proof. by split. Qed.

Lemma sameBoard_trans s1 s2 s3 :
  sameBoard s1 s2 → sameBoard s2 s3 → sameBoard s1 s3.
Proof. intros [] []. split; congruence. Qed.

Lemma sameBoard_edgeAt s s' isH r c :
  sameBoard s s' → edgeAt s' isH r c = edgeAt s isH r c.
Proof.
  intros []. unfold edgeAt, linesOf. destruct isH; congruence.
Qed.

Lemma sameBoard_complete s s' r c :
  sameBoard s s' → complete s' r c = complete s r c.
Proof. intros Hb. unfold complete. by rewrite !(sameBoard_edgeAt s s'). Qed.

Lemma sameBoard_inGrid s s' r c : sameBoard s s' → inGrid s' r c ↔ inGrid s r c.
Proof. intros []. unfold inGrid. by rewrite sb_rows0, sb_cols0. Qed.

Lemma claimStep_wf s fl r c :
  wf s →
  ∃ s', claimStep (s, fl) (r, c) = Some (s', fl || claims s r c) ∧
        wf s' ∧ sameBoard s s' ∧
        (∀ i j, ownerAt s' i j =
                if claims s r c && bool_decide (i = r ∧ j = c)
                then Some (currentPlayer s) else ownerAt s i j) ∧
        (∀ p, scoreOf (scores s') p =
              scoreOf (scores s) p +
              if decide (p = currentPlayer s) then b2z (claims s r c) else 0) ∧
        (∀ p, ownedBy s' p =
              ownedBy s p +
              if decide (p = currentPlayer s) then b2z (claims s r c) else 0).
Proof.
  intros Hs. unfold claimStep. rewrite (checkSquareCompletion_wf s r c Hs).
  fold (claims s r c). simpl. destruct (claims s r c) eqn:Hcl; simpl.
  - apply claims_inv in Hcl as (Hin & Hown & _).
    pose proof (get_squares s r c Hs Hin) as Hget. rewrite Hown in Hget.
    destruct Hin as [Hr Hc].
    destruct (assignAt_total (squares s) _ _ r c (Some (currentPlayer s))
                (wf_squares s Hs) Hr Hc) as [sq' Hsq'].
    rewrite Hsq'. simpl. eexists. split.
    { by rewrite orb_true_r. }
    split; [|split; [|split; [|split]]].
    + destruct Hs. split; simpl; try done.
      by apply (assignAt_shaped _ _ _ _ _ _ _ wf_squares0 Hsq').
    + by split.
    + intros i j. unfold ownerAt. simpl.
      rewrite (assignAt_get _ _ _ _ _ i j Hsq').
      destruct (decide (i = r ∧ j = c)) as [Hij|Hij].
      * by rewrite bool_decide_eq_true_2.
      * by rewrite bool_decide_eq_false_2.
    + intros p. simpl. rewrite scoreOf_bump.
      destruct (decide (p = currentPlayer s)); done.
    + intros p. unfold ownedBy. simpl.
      rewrite (countCells_assignAt _ _ _ _ _ _ _ Hget Hsq'). simpl.
      destruct (decide (p = currentPlayer s)) as [->|Hne].
      * rewrite bool_decide_eq_true_2 by done. simpl. lia.
      * rewrite bool_decide_eq_false_2 by congruence. simpl. lia.
  - exists s. rewrite orb_false_r. split; [done|].
    split; [done|]. split; [apply sameBoard_refl|].
    split; [done|]. split; intros p; destruct (decide (p = currentPlayer s));
      simpl; lia.
Qed.

Lemma existsb_ext_in {A} (f g : A → bool) (l : list A) :
  (∀ x, x ∈ l → f x = g x) → existsb f l = existsb g l.
Proof.
  induction l as [|y l IH]; intros Hfg; simpl; [done|].
  rewrite Hfg by left. rewrite IH; [done|]. intros x Hx. apply Hfg. by right.
Qed.

Lemma forEach_claimStep l s fl :
  wf s → NoDup l →
  ∃ s', forEach claimStep l (s, fl)
        = Some (s', fl || existsb (λ sq, claims s sq.1 sq.2) l) ∧
        wf s' ∧ sameBoard s s' ∧
        (∀ i j, ownerAt s' i j =
                if claimedIn s l i j then Some (currentPlayer s)
                else ownerAt s i j) ∧
        (∀ p, scoreOf (scores s') p =
              scoreOf (scores s) p +
              if decide (p = currentPlayer s) then claimedCount s l else 0) ∧
        (∀ p, ownedBy s' p =
              ownedBy s p +
              if decide (p = currentPlayer s) then claimedCount s l else 0).
Proof.
  intros Hs Hnd. revert s fl Hs.
  induction Hnd as [|[r c] l Hnotin Hnd IH]; intros s fl Hs.
  - exists s. simpl. rewrite orb_false_r. split; [done|].
    split; [done|]. split; [apply sameBoard_refl|]. split; [done|].
    unfold claimedCount. simpl.
    split; intros p; destruct (decide (p = currentPlayer s)); lia.
  - destruct (claimStep_wf s fl r c Hs)
      as (s1 & Hstep & Hs1 & Hb1 & Hown1 & Hsc1 & Hby1).
    destruct (IH s1 (fl || claims s r c) Hs1)
      as (s2 & Hloop & Hs2 & Hb2 & Hown2 & Hsc2 & Hby2).
    assert (Hcl : ∀ i j, (i, j) ∈ l → claims s1 i j = claims s i j).
    { intros i j Hij. unfold claims.
      rewrite (sameBoard_complete s s1) by done.
      rewrite (bool_decide_ext _ _ (sameBoard_inGrid s s1 i j Hb1)).
      rewrite Hown1. rewrite (bool_decide_eq_false_2 (i = r ∧ j = c)).
      - by rewrite andb_false_r.
      - intros [-> ->]. done. }
    assert (Hcnt : claimedCount s1 l = claimedCount s l).
    { unfold claimedCount. apply sumWith_ext. intros [i j] Hij. simpl.
      by rewrite Hcl. }
    exists s2. cbn [forEach existsb fst snd]. rewrite Hstep. simpl.
    rewrite Hloop. split.
    { f_equal. f_equal. rewrite <- orb_assoc. f_equal. f_equal.
      apply existsb_ext_in. intros [i j] Hij. by apply Hcl. }
    split; [done|]. split; [by apply (sameBoard_trans s s1 s2)|].
    destruct Hb1 as [_ _ _ _ Hp1 _ _].
    split; [|split].
    + intros i j. rewrite Hown2, Hown1, Hp1. unfold claimedIn.
      destruct (decide ((i, j) ∈ l)) as [Hin|Hin].
      * rewrite (bool_decide_eq_true_2 ((i, j) ∈ l)) by done.
        rewrite Hcl by done. simpl.
        rewrite (bool_decide_eq_true_2 ((i, j) ∈ (r, c) :: l)) by (by right).
        simpl. destruct (claims s i j); [done|].
        rewrite (bool_decide_eq_false_2 (i = r ∧ j = c)).
        -- by rewrite andb_false_r.
        -- intros [-> ->]. done.
      * rewrite (bool_decide_eq_false_2 ((i, j) ∈ l)) by done. simpl.
        destruct (decide (i = r ∧ j = c)) as [[-> ->]|Hne].
        -- rewrite !bool_decide_eq_true_2 by (done || left).
           rewrite andb_true_r. simpl. done.
        -- rewrite (bool_decide_eq_false_2 (i = r ∧ j = c)) by done.
           rewrite andb_false_r.
           rewrite (bool_decide_eq_false_2 ((i, j) ∈ (r, c) :: l)); [done|].
           intros [Heq|?]%elem_of_cons; [|done].
           injection Heq as -> ->. by apply Hne.
    + intros p. rewrite Hsc2, Hsc1, Hp1, Hcnt. unfold claimedCount. simpl.
      destruct (decide (p = currentPlayer s)); lia.
    + intros p. rewrite Hby2, Hby1, Hp1, Hcnt. unfold claimedCount. simpl.
      destruct (decide (p = currentPlayer s)); lia.
Qed.

(** * The move engine on a well-formed session *)

Lemma withLine_wf s isH r c lines' :
  wf s → assignAt (linesOf s isH) r c true = Some lines' →
  wf (withLine s isH lines').
Proof.
  intros Hs Hl. pose proof (wf_lines s isH Hs) as Hsh.
  pose proof (assignAt_shaped _ _ _ _ _ _ _ Hsh Hl) as Hsh'.
  destruct Hs. destruct isH; split; simpl in *; done.
Qed.

Lemma withLine_edgeAt s isH r c lines' h i j :
  assignAt (linesOf s isH) r c true = Some lines' →
  edgeAt (withLine s isH lines') h i j
  = bool_decide (h = isH ∧ i = r ∧ j = c) || edgeAt s h i j.
Proof.
  intros Hl. pose proof (assignAt_get _ _ _ _ _ i j Hl) as Hget.
  unfold edgeAt. destruct (decide (h = isH)) as [->|Hne].
  - replace (linesOf (withLine s isH lines') isH) with lines'
      by (by destruct isH).
    rewrite Hget. destruct (decide (i = r ∧ j = c)) as [Hij|Hij].
    + rewrite bool_decide_eq_true_2; [done|]. by destruct Hij.
    + rewrite bool_decide_eq_false_2; [done|]. intros (_ & ? & ?). by apply Hij.
  - rewrite bool_decide_eq_false_2 by (by intros [? _]).
    by destruct h, isH.
Qed.

Lemma NoDup_squaresToCheck isH r c : NoDup (squaresToCheck isH r c).
Proof.
  destruct isH; simpl; apply NoDup_cons; split;
    try (apply NoDup_singleton);
    intros Hin%list_elem_of_singleton; injection Hin; lia.
Qed.

Lemma sumWith_b2z_nonneg {A} (f : A → bool) (l : list A) :
  0 ≤ sumWith (λ x, b2z (f x)) l.
Proof. induction l as [|y l IH]; simpl; [lia|]. destruct (f y); simpl; lia. Qed.

Lemma existsb_sumWith {A} (f : A → bool) (l : list A) :
  existsb f l = false ↔ sumWith (λ x, b2z (f x)) l = 0.
Proof.
  induction l as [|y l IH]; simpl; [done|].
  pose proof (sumWith_b2z_nonneg f l).
  rewrite orb_false_iff, IH. destruct (f y); simpl.
  - split; [by intros [? _]|lia].
  - split; [by intros [_ ?]|by intros ?].
Qed.

Lemma moveBody_wf s type r c :
  wf s →
  (outOfBounds s (isHType type) r c ∨ edgeAt s (isHType type) r c = true) ∧
  moveBody s type r c = Some Rejected
  ∨ ∃ s', moveBody s type r c = Some (Accepted s') ∧
          accepted s (isHType type) r c s'.
Proof.
  intros Hs. unfold moveBody. set (isH := isHType type).
  destruct (decide (outOfBounds s isH r c)) as [Hout|Hin].
  { left. split; [by left|done]. }
  pose proof (proj1 (inBounds_range s isH r c Hs) Hin) as [Hr Hc].
  rewrite (truthyAt_edge s isH r c Hs Hr). simpl.
  destruct (edgeAt s isH r c) eqn:Hfree.
  { left. split; [by right|done]. }
  right.
  destruct (assignAt_total _ _ _ r c true (wf_lines s isH Hs) Hr Hc)
    as [lines' Hl].
  rewrite Hl. simpl. set (s1 := withLine s isH lines').
  pose proof (withLine_wf s isH r c lines' Hs Hl) as Hs1.
  destruct (forEach_claimStep (squaresToCheck isH r c) s1 false Hs1
              (NoDup_squaresToCheck isH r c))
    as (s2 & Hloop & Hs2 & Hb & Hown & Hsc & Hby).
  fold s1. rewrite Hloop. simpl. eexists. split; [done|].
  assert (Hfill : ∀ fl i j, fills s (finishMove s2 fl) i j = claims s1 i j).
  { intros fl i j. unfold fills, claims.
    replace (complete (finishMove s2 fl) i j) with (complete s1 i j); [done|].
    rewrite <- (sameBoard_complete s1 s2) by done. done. }
  assert (Hcnt : ∀ fl, completedCount s (finishMove s2 fl) isH r c
                       = claimedCount s1 (squaresToCheck isH r c)).
  { intros fl. unfold completedCount, claimedCount.
    apply sumWith_ext. intros [i j] _. simpl. by rewrite Hfill. }
  destruct Hb as [Hrows Hcols Hh Hv Hp Hov Hmc].
  split; simpl; try done.
  - destruct Hs2. split; simpl; done.
  - intros h i j.
    rewrite <- (withLine_edgeAt s isH r c lines' h i j Hl). fold s1.
    unfold edgeAt, linesOf. simpl. by rewrite Hh, Hv.
  - intros i j. unfold completedBy. rewrite Hfill.
    change (ownerAt (finishMove s2 _) i j) with (ownerAt s2 i j).
    rewrite Hown. done.
  - intros p. rewrite Hcnt, Hsc. done.
  - intros p. rewrite Hcnt.
    change (ownedBy (finishMove s2 _) p) with (ownedBy s2 p).
    rewrite Hby. done.
  - rewrite Hcnt, Hp. unfold claimedCount.
    pose proof (existsb_sumWith (λ sq, claims s1 sq.1 sq.2)
                  (squaresToCheck isH r c)) as Hex'.
    simpl in Hex'.
    destruct (existsb _ _) eqn:Hex; destruct (decide _) as [Hz|Hz];
      simpl; try done.
    + apply Hex' in Hz. done.
    + exfalso. apply Hz, Hex'. done.
Qed.

Lemma withinBounds_outOfBounds s isH r c :
  withinBounds s isH r c ↔ ¬ outOfBounds s isH r c.
Proof. unfold withinBounds, outOfBounds. destruct isH; lia. Qed.

Lemma handleMove_wf s type r c :
  wf s →
  (isGameOver s = true ∨ outOfBounds s (isHType type) r c
   ∨ edgeAt s (isHType type) r c = true) ∧
  IndexJs.handleMove s type r c = Some Rejected
  ∨ ∃ s', IndexJs.handleMove s type r c = Some (Accepted s') ∧
          isGameOver s = false ∧ accepted s (isHType type) r c s'.
Proof.
  intros Hs. unfold IndexJs.handleMove. destruct (isGameOver s) eqn:Hov.
  { left. split; [by left|done]. }
  destruct (moveBody_wf s type r c Hs) as [[Hrej ->]|(s' & -> & Hacc)].
  - left. split; [by right|done].
  - right. by exists s'.
Qed.

Lemma handleMove_accepted s type r c s' :
  wf s → IndexJs.handleMove s type r c = Some (Accepted s') →
  isGameOver s = false ∧ accepted s (isHType type) r c s'.
Proof.
  intros Hs Hm.
  destruct (handleMove_wf s type r c Hs) as [[_ Hrej]|(s2 & Hacc & Hov & Hfacts)].
  - congruence.
  - rewrite Hm in Hacc. by injection Hacc as <-.
Qed.

Lemma reachable_wf nr nc s : reachable nr nc s → wf s.
Proof.
  induction 1 as [|s type r c s' _ IH Hm].
  - apply wf_createInitialState.
  - by destruct (handleMove_accepted s type r c s' IH Hm) as [_ []].
Qed.

Lemma reachable_dims nr nc s :
  reachable nr nc s → rows s = Z.of_nat nr ∧ cols s = Z.of_nat nc.
Proof.
  induction 1 as [|s type r c s' Hreach IH Hm]; [done|].
  destruct (handleMove_accepted s type r c s' (reachable_wf _ _ _ Hreach) Hm)
    as [_ []]. lia.
Qed.

Lemma reachable_calls nr nc ms s s' :
  reachable nr nc s → calls s ms = Some s' → reachable nr nc s'.
Proof.
  unfold calls. revert s. induction ms as [|m ms IH]; intros s Hs Hrun.
  - by injection Hrun as <-.
  - cbn [forEach] in Hrun.
    destruct (IndexJs.handleMove s (move_type m) (move_r m) (move_c m))
      as [[|s1]|] eqn:Hm; simpl in Hrun; [by apply (IH s)| |done].
    apply (IH s1); [|done]. by apply (reach_move nr nc s _ _ _ s1 Hs Hm).
Qed.

Lemma reachable_threeSides : reachable 1 1 threeSides.
Proof.
  apply (reachable_calls 1 1
           [mkMove typeH 0 0; mkMove typeV 0 0; mkMove typeV 0 1]
           (createInitialState 1 1)); [apply reach_init|reflexivity].
Qed.

Lemma reachable_doubleCross : reachable 1 2 doubleCross.
Proof.
  apply (reachable_calls 1 2
           [mkMove typeH 0 0; mkMove typeH 0 1; mkMove typeH 1 0;
            mkMove typeH 1 1; mkMove typeV 0 0; mkMove typeV 0 2]
           (createInitialState 1 2)); [apply reach_init|reflexivity].
Qed.

Lemma reachable_twoSides : reachable 2 2 twoSides.
Proof.
  apply (reachable_calls 2 2 [mkMove typeH 0 0; mkMove typeV 0 0]
           (createInitialState 2 2)); [apply reach_init|reflexivity].
Qed.

(** * The move engine: legality *)

(** C1.  On every reachable session a call of [handleMove] ends, and it
    is rejected exactly when the session is over, or the coordinates lie
    outside the bounds of the edge type, or the edge is already claimed;
    a rejected call leaves the session as it was. *)
Theorem handleMove_rejected_iff nr nc s type r c :
  reachable nr nc s →
  ∃ o, IndexJs.handleMove s type r c = Some o ∧
       (o = Rejected ↔
        isGameOver s = true ∨ ¬ withinBounds s (isHType type) r c
        ∨ edgeAt s (isHType type) r c = true) ∧
       (o = Rejected → stateAfter s o = s).
Proof.
  intros Hs%reachable_wf.
  destruct (handleMove_wf s type r c Hs)
    as [[Hwhy Hrej]|(s' & Hacc & Hov & Hfacts)].
  - exists Rejected. split; [done|]. split; [|done].
    split; [|done]. intros _. rewrite withinBounds_outOfBounds.
    destruct Hwhy as [?|[?|?]]; [by left|right; left|by right; right].
    by intros Hn.
  - exists (Accepted s'). split; [done|]. split; [|done].
    split; [done|]. destruct Hfacts as [Hb Hfree].
    rewrite withinBounds_outOfBounds. intros [?|[?|?]]; [congruence| |congruence].
    tauto.
Qed.

Lemma handleMove_rejected_iff_witness :
  ∃ o, IndexJs.handleMove (createInitialState 2 2) (JsString "h") 3 0 = Some o ∧
       (o = Rejected ↔
        isGameOver (createInitialState 2 2) = true
        ∨ ¬ withinBounds (createInitialState 2 2) (isHType (JsString "h")) 3 0
        ∨ edgeAt (createInitialState 2 2) (isHType (JsString "h")) 3 0 = true) ∧
       (o = Rejected →
        stateAfter (createInitialState 2 2) o = createInitialState 2 2).
Proof.
  exact (handleMove_rejected_iff 2 2 (createInitialState 2 2) (JsString "h")
           3 0 (reach_init 2 2)).
Defined.

(** * The move engine: turn and ownership *)

Lemma sumWith_b2z_le_length {A} (f : A → bool) (l : list A) :
  sumWith (λ x, b2z (f x)) l ≤ Z.of_nat (length l).
Proof. induction l as [|y l IH]; simpl; [lia|]. destruct (f y); simpl; lia. Qed.

Lemma completedCount_range s s' isH r c :
  0 ≤ completedCount s s' isH r c ≤ 2.
Proof.
  unfold completedCount. split.
  - apply (sumWith_b2z_nonneg (λ sq, fills s s' sq.1 sq.2)).
  - etrans; [apply (sumWith_b2z_le_length (λ sq, fills s s' sq.1 sq.2))|].
    by destruct isH.
Qed.

Lemma accepted_ownedCount s isH r c s' :
  accepted s isH r c s' →
  ownedCount s' = ownedCount s + completedCount s s' isH r c.
Proof.
  intros Hacc. rewrite !ownedCount_split.
  rewrite !(acc_ownedBy _ _ _ _ _ Hacc).
  destruct (currentPlayer s); simpl; lia.
Qed.

Lemma other_neq p : other p ≠ p.
Proof. by destruct p. Qed.

Lemma sumWith_filter_length {A} (f : A → bool) (l : list A) :
  sumWith (λ x, b2z (f x)) l = Z.of_nat (length (filter (λ x, f x = true) l)).
Proof.
  induction l as [|y l IH]; [done|].
  rewrite filter_cons. simpl. rewrite IH.
  destruct (decide (f y = true)) as [Hy|Hy].
  - rewrite Hy. simpl. lia.
  - apply not_true_is_false in Hy. rewrite Hy. simpl. lia.
Qed.

Lemma complete_sidesOf s i j : complete s i j = true ↔ sidesOf s i j = 4.
Proof.
  unfold complete, sidesOf.
  destruct (edgeAt s true i j), (edgeAt s true (i + 1) j),
    (edgeAt s false i j), (edgeAt s false i (j + 1)); simpl; split; done || lia.
Qed.

Lemma elem_of_squaresToCheck isH r c i j :
  (i, j) ∈ squaresToCheck isH r c ↔
  if isH then j = c ∧ (i = r - 1 ∨ i = r) else i = r ∧ (j = c - 1 ∨ j = c).
Proof.
  destruct isH; simpl; rewrite !elem_of_cons, elem_of_nil; split.
  - intros [[= -> ->]|[[= -> ->]|[]]]; lia.
  - intros [-> [->| ->]]; auto.
  - intros [[= -> ->]|[[= -> ->]|[]]]; lia.
  - intros [-> [->| ->]]; auto.
Qed.

(** Claiming an edge adds one side to the squares next to it, and to no
    other square. *)
Lemma accepted_sidesOf s isH r c s' i j :
  accepted s isH r c s' →
  sidesOf s' i j
  = sidesOf s i j + b2z (bool_decide ((i, j) ∈ squaresToCheck isH r c)).
Proof.
  intros Hacc. pose proof (acc_free _ _ _ _ _ Hacc) as Hfree.
  unfold sidesOf. rewrite !(acc_edge _ _ _ _ _ Hacc).
  pose proof (elem_of_squaresToCheck isH r c i j) as Hel.
  destruct isH; rewrite (bool_decide_ext _ _ Hel); clear Hel.
  - rewrite (bool_decide_eq_false_2 (false = true ∧ i = r ∧ j = c))
      by (by intros [? _]).
    rewrite (bool_decide_eq_false_2 (false = true ∧ i = r ∧ j + 1 = c))
      by (by intros [? _]).
    simpl. repeat case_bool_decide; simpl; destruct_and?; subst;
      rewrite ?Hfree; simpl; try lia.
  - rewrite (bool_decide_eq_false_2 (true = false ∧ i = r ∧ j = c))
      by (by intros [? _]).
    rewrite (bool_decide_eq_false_2 (true = false ∧ i + 1 = r ∧ j = c))
      by (by intros [? _]).
    simpl. repeat case_bool_decide; simpl; destruct_and?; subst;
      rewrite ?Hfree; simpl; try lia.
Qed.

Lemma getSquareSideCount_Some s i j n :
  wf s → 0 ≤ n →
  getSquareSideCount s i j = Some n ↔ inGrid s i j ∧ sidesOf s i j = n.
Proof.
  intros Hs Hn. rewrite (getSquareSideCount_wf s i j Hs).
  destruct (decide (inGrid s i j)) as [Hin|Hout]; split.
  - intros [= <-]. done.
  - intros [_ <-]. done.
  - intros [= <-]. lia.
  - intros [? _]. done.
Qed.

Lemma get_squares_outside s i j :
  wf s → ¬ inGrid s i j → get (squares s) i j = None.
Proof.
  intros Hs Hout. destruct (get (squares s) i j) as [cell|] eqn:Hget; [|done].
  destruct Hout. apply (get_inside _ _ _ _ _ _ (wf_squares s Hs) Hget).
Qed.

Lemma accepted_inGrid s isH r c s' i j :
  accepted s isH r c s' → inGrid s' i j ↔ inGrid s i j.
Proof.
  intros Hacc. unfold inGrid.
  by rewrite (acc_rows _ _ _ _ _ Hacc), (acc_cols _ _ _ _ _ Hacc).
Qed.

Lemma elem_of_completedSquares s s' isH r c i j :
  (i, j) ∈ completedSquares s s' isH r c ↔
  completedBy s s' isH r c i j = true.
Proof.
  unfold completedSquares, completedBy.
  rewrite list_elem_of_filter, andb_true_iff, bool_decide_eq_true. simpl. tauto.
Qed.

(** A square is completed by an accepted move exactly when it was unowned
    and its number of sides goes from three to four. *)
Lemma completedBy_three_to_four s isH r c s' i j :
  wf s → accepted s isH r c s' →
  completedBy s s' isH r c i j = true ↔
  getSquareSideCount s i j = Some 3 ∧ getSquareSideCount s' i j = Some 4 ∧
  get (squares s) i j = Some None.
Proof.
  intros Hs Hacc. pose proof (acc_wf _ _ _ _ _ Hacc) as Hs'.
  rewrite !getSquareSideCount_Some by (done || lia).
  rewrite (accepted_inGrid _ _ _ _ _ i j Hacc).
  pose proof (accepted_sidesOf _ _ _ _ _ i j Hacc) as Hsides.
  unfold completedBy, fills.
  rewrite !andb_true_iff, !bool_decide_eq_true, complete_sidesOf.
  split.
  - intros (Hadj & (Hin & Hown) & Hfour).
    rewrite bool_decide_eq_true_2 in Hsides by done. simpl in Hsides.
    split; [split; [done|lia]|]. split; [done|].
    by rewrite (get_squares s i j Hs Hin), Hown.
  - intros ((Hin & Hthree) & (_ & Hfour) & Hget).
    rewrite (get_squares s i j Hs Hin) in Hget.
    split; [|split; [split; [done|congruence]|done]].
    destruct (decide ((i, j) ∈ squaresToCheck isH r c)) as [|Hno]; [done|].
    rewrite bool_decide_eq_false_2 in Hsides by done. simpl in Hsides. lia.
Qed.

(** C3.  The squares completed by an accepted move are exactly the
    squares, unowned before, whose number of sides goes from three to
    four; each of them gets the mover as owner, no other square changes
    owner, the score of the mover grows by their number and the other
    score stays; there are at most two of them, both next to the edge. *)
Theorem completed_squares_go_to_mover nr nc s type r c s' :
  reachable nr nc s →
  IndexJs.handleMove s type r c = Some (Accepted s') →
  let l := completedSquares s s' (isHType type) r c in
  let mover := currentPlayer s in
  (∀ i j, (i, j) ∈ l ↔
          getSquareSideCount s i j = Some 3 ∧
          getSquareSideCount s' i j = Some 4 ∧
          get (squares s) i j = Some None) ∧
  (∀ i j, (i, j) ∈ l → get (squares s') i j = Some (Some mover)) ∧
  (∀ i j, (i, j) ∉ l → get (squares s') i j = get (squares s) i j) ∧
  scoreOf (scores s') mover = scoreOf (scores s) mover + Z.of_nat (length l) ∧
  scoreOf (scores s') (other mover) = scoreOf (scores s) (other mover) ∧
  NoDup l ∧ (length l ≤ 2)%nat ∧ l ⊆ squaresToCheck (isHType type) r c.
Proof.
  intros Hs%reachable_wf Hm.
  destruct (handleMove_accepted s type r c s' Hs Hm) as [_ Hacc].
  pose proof (acc_wf _ _ _ _ _ Hacc) as Hs'.
  set (isH := isHType type) in *. simpl.
  assert (Hlen : completedCount s s' isH r c
                 = Z.of_nat (length (completedSquares s s' isH r c))).
  { apply (sumWith_filter_length (λ sq, fills s s' sq.1 sq.2)). }
  split; [|split; [|split; [|split; [|split; [|split; [|split]]]]]].
  - intros i j. rewrite elem_of_completedSquares.
    by apply completedBy_three_to_four.
  - intros i j Hin. pose proof Hin as Hby.
    apply elem_of_completedSquares in Hby.
    pose proof (proj1 (completedBy_three_to_four s isH r c s' i j Hs Hacc) Hby)
      as (_ & H4 & _).
    apply getSquareSideCount_Some in H4 as [Hgrid _]; [|done|lia].
    rewrite (get_squares s' i j Hs' Hgrid).
    by rewrite (acc_owner _ _ _ _ _ Hacc), Hby.
  - intros i j Hout. rewrite elem_of_completedSquares in Hout.
    apply not_true_is_false in Hout.
    destruct (decide (inGrid s i j)) as [Hgrid|Hgrid].
    + rewrite (get_squares s i j Hs Hgrid).
      rewrite (get_squares s' i j Hs')
        by (by apply (accepted_inGrid _ _ _ _ _ i j Hacc)).
      by rewrite (acc_owner _ _ _ _ _ Hacc), Hout.
    + rewrite (get_squares_outside s i j Hs Hgrid).
      apply (get_squares_outside s' i j Hs').
      by rewrite (accepted_inGrid _ _ _ _ _ i j Hacc).
  - rewrite (acc_scores _ _ _ _ _ Hacc). rewrite decide_True by done.
    by rewrite Hlen.
  - rewrite (acc_scores _ _ _ _ _ Hacc).
    rewrite decide_False by apply other_neq. lia.
  - apply NoDup_filter, NoDup_squaresToCheck.
  - pose proof (completedCount_range s s' isH r c). lia.
  - intros sq Hsq. unfold completedSquares in Hsq.
    by apply list_elem_of_filter in Hsq as [_ ?].
Qed.

Lemma completed_squares_go_to_mover_witness :
  ∃ s', IndexJs.handleMove doubleCross typeV 0 1 = Some (Accepted s') ∧
  let l := completedSquares doubleCross s' (isHType typeV) 0 1 in
  let mover := currentPlayer doubleCross in
  (∀ i j, (i, j) ∈ l ↔
          getSquareSideCount doubleCross i j = Some 3 ∧
          getSquareSideCount s' i j = Some 4 ∧
          get (squares doubleCross) i j = Some None) ∧
  (∀ i j, (i, j) ∈ l → get (squares s') i j = Some (Some mover)) ∧
  (∀ i j, (i, j) ∉ l → get (squares s') i j = get (squares doubleCross) i j) ∧
  scoreOf (scores s') mover
  = scoreOf (scores doubleCross) mover + Z.of_nat (length l) ∧
  scoreOf (scores s') (other mover) = scoreOf (scores doubleCross) (other mover) ∧
  NoDup l ∧ (length l ≤ 2)%nat ∧ l ⊆ squaresToCheck (isHType typeV) 0 1.
Proof.
  eexists. split; [reflexivity|].
  apply (completed_squares_go_to_mover 1 2 doubleCross typeV 0 1 _
           reachable_doubleCross).
  reflexivity.
Defined.

(** * Scores *)

Lemma sumWith_replicate_0 {A} (g : A → Z) (n : nat) (x : A) :
  g x = 0 → sumWith g (replicate n x) = 0.
Proof. intros Hx. induction n as [|n IH]; simpl; lia. Qed.

Lemma ownedBy_createInitialState nr nc p :
  ownedBy (createInitialState nr nc) p = 0.
Proof.
  unfold ownedBy, countCells. simpl. apply sumWith_replicate_0.
  unfold countRow. by apply sumWith_replicate_0.
Qed.

Lemma reachable_scores nr nc s p :
  reachable nr nc s → scoreOf (scores s) p = ownedBy s p.
Proof.
  induction 1 as [|s type r c s' Hreach IH Hm].
  - rewrite ownedBy_createInitialState. by destruct p.
  - destruct (handleMove_accepted s type r c s' (reachable_wf _ _ _ Hreach) Hm)
      as [_ Hacc].
    rewrite (acc_scores _ _ _ _ _ Hacc), (acc_ownedBy _ _ _ _ _ Hacc). lia.
Qed.

(** C4.  In every session reached from a fresh board by accepted moves
    the two scores add up to the number of owned squares, and the score
    of each player is the number of squares that player owns. *)
Theorem scores_count_owned_squares nr nc s :
  reachable nr nc s →
  score_PLAYER_1 (scores s) + score_PLAYER_2 (scores s) = ownedCount s ∧
  score_PLAYER_1 (scores s) = ownedBy s PLAYER_1 ∧
  score_PLAYER_2 (scores s) = ownedBy s PLAYER_2.
Proof.
  intros Hs.
  pose proof (reachable_scores nr nc s PLAYER_1 Hs) as H1.
  pose proof (reachable_scores nr nc s PLAYER_2 Hs) as H2.
  simpl in H1, H2. rewrite ownedCount_split. lia.
Qed.

Lemma scores_count_owned_squares_witness :
  ∃ s, calls doubleCross [mkMove typeV 0 1] = Some s ∧
       score_PLAYER_1 (scores s) + score_PLAYER_2 (scores s) = ownedCount s ∧
       score_PLAYER_1 (scores s) = ownedBy s PLAYER_1 ∧
       score_PLAYER_2 (scores s) = ownedBy s PLAYER_2.
Proof.
  eexists. split; [reflexivity|].
  apply (scores_count_owned_squares 1 2).
  apply (reachable_calls 1 2 [mkMove typeV 0 1] doubleCross);
    [apply reachable_doubleCross|reflexivity].
Defined.

(** * The end of the game *)

Lemma get_of_lookup {A} (m : list (list A)) (a b : nat) rw x :
  m !! a = Some rw → rw !! b = Some x →
  get m (Z.of_nat a) (Z.of_nat b) = Some x.
Proof.
  intros Ha Hb. unfold get.
  assert (Hrow : index m (Z.of_nat a) = Some rw).
  { apply index_Some. rewrite Nat2Z.id. split; [lia|done]. }
  rewrite Hrow. simpl. apply index_Some. rewrite Nat2Z.id. split; [lia|done].
Qed.

Lemma get_lookup {A} (m : list (list A)) i j x :
  get m i j = Some x →
  ∃ rw, m !! Z.to_nat i = Some rw ∧ rw !! Z.to_nat j = Some x.
Proof.
  unfold get. intros Hget.
  destruct (index m i) as [rw|] eqn:Hrw; [|done]. simpl in Hget.
  apply index_Some in Hrw as [_ Hrw]. apply index_Some in Hget as [_ Hget].
  by exists rw.
Qed.

Lemma every_owned_cell s :
  wf s → (∀ i j, get (squares s) i j ≠ Some None) ↔
         (∀ i j, inGrid s i j → ownerAt s i j ≠ None).
Proof.
  intros Hs. split.
  - intros Hall i j Hin Hnone. apply (Hall i j).
    by rewrite (get_squares s i j Hs Hin), Hnone.
  - intros Hall i j Hget.
    pose proof (get_inside _ _ _ _ _ _ (wf_squares s Hs) Hget) as Hin.
    apply (Hall i j Hin). unfold ownerAt. by rewrite Hget.
Qed.

Lemma allOwned_iff s :
  wf s → allOwned (squares s) = true ↔ ∀ i j, get (squares s) i j ≠ Some None.
Proof.
  intros Hs. unfold allOwned. rewrite forallb_forall. split.
  - intros Hall i j (rw & Hrw & Hget)%get_lookup.
    apply list_elem_of_lookup_2, list_elem_of_In in Hrw.
    apply list_elem_of_lookup_2, list_elem_of_In in Hget.
    specialize (Hall rw Hrw). rewrite forallb_forall in Hall.
    by specialize (Hall None Hget).
  - intros Hall rw Hrw. apply forallb_forall. intros cell Hcell.
    destruct cell as [p|]; [done|]. exfalso.
    apply list_elem_of_In, list_elem_of_lookup_1 in Hrw as [a Ha].
    apply list_elem_of_In, list_elem_of_lookup_1 in Hcell as [b Hb].
    apply (Hall (Z.of_nat a) (Z.of_nat b)). by apply (get_of_lookup _ _ _ rw).
Qed.

Lemma allOwned_createInitialState nr nc :
  (0 < nr)%nat → (0 < nc)%nat →
  allOwned (squares (createInitialState nr nc)) = false.
Proof.
  intros Hr Hc. destruct nr as [|nr]; [lia|]. destruct nc as [|nc]; [lia|].
  reflexivity.
Qed.

Lemma reachable_isGameOver nr nc s :
  (0 < nr)%nat → (0 < nc)%nat → reachable nr nc s →
  isGameOver s = allOwned (squares s).
Proof.
  intros Hr Hc. induction 1 as [|s type r c s' Hreach IH Hm].
  - by rewrite allOwned_createInitialState.
  - destruct (handleMove_accepted s type r c s' (reachable_wf _ _ _ Hreach) Hm)
      as [_ Hacc]. apply (acc_over _ _ _ _ _ Hacc).
Qed.

Lemma handleMove_over s type r c :
  isGameOver s = true → IndexJs.handleMove s type r c = Some Rejected.
Proof. intros Hov. unfold IndexJs.handleMove. by rewrite Hov. Qed.

Lemma calls_over s ms : isGameOver s = true → calls s ms = Some s.
Proof.
  intros Hov. unfold calls. induction ms as [|m ms IH]; [done|].
  cbn [forEach]. cbv beta. rewrite (handleMove_over s _ _ _ Hov).
  simpl. apply IH.
Qed.

(** C5.  After an accepted move [isGameOver] holds exactly when every
    square has an owner.  The flag was false before the move; when it is
    true after it, some square was still unowned before and every such
    square is completed by this very move; and from then on every call
    of [handleMove] is rejected, so that no sequence of calls changes
    the session or the flag again. *)
Theorem isGameOver_on_last_square nr nc s type r c s' :
  (0 < nr)%nat → (0 < nc)%nat →
  reachable nr nc s →
  IndexJs.handleMove s type r c = Some (Accepted s') →
  (isGameOver s' = true ↔ ∀ i j, get (squares s') i j ≠ Some None) ∧
  isGameOver s = false ∧
  (isGameOver s' = true →
   (∃ i j, get (squares s) i j = Some None) ∧
   (∀ i j, get (squares s) i j = Some None →
           (i, j) ∈ completedSquares s s' (isHType type) r c) ∧
   (∀ type2 r2 c2, IndexJs.handleMove s' type2 r2 c2 = Some Rejected) ∧
   (∀ ms, calls s' ms = Some s')).
Proof.
  intros Hr Hc Hreach Hm. pose proof (reachable_wf _ _ _ Hreach) as Hs.
  destruct (handleMove_accepted s type r c s' Hs Hm) as [Hplaying Hacc].
  pose proof (acc_wf _ _ _ _ _ Hacc) as Hs'.
  split; [|split; [done|]].
  { rewrite (acc_over _ _ _ _ _ Hacc). by apply allOwned_iff. }
  intros Hov.
  assert (Hall' : ∀ i j, get (squares s') i j ≠ Some None).
  { apply (allOwned_iff s' Hs'). by rewrite <- (acc_over _ _ _ _ _ Hacc). }
  split; [|split; [|split]].
  - rewrite (reachable_isGameOver nr nc s Hr Hc Hreach) in Hplaying.
    assert (Hex : ¬ ∀ i j, get (squares s) i j ≠ Some None).
    { rewrite <- (allOwned_iff s Hs). congruence. }
    destruct (decide (Forall (λ rw, Forall (λ sq, sq ≠ None) rw) (squares s)))
      as [Hfa|Hfa].
    + destruct Hex. intros i j (rw & Hrw & Hget)%get_lookup.
      pose proof (Forall_lookup_1 _ _ _ _ Hfa Hrw) as Hfrw. simpl in Hfrw.
      by pose proof (Forall_lookup_1 _ _ _ _ Hfrw Hget).
    + apply not_Forall_Exists in Hfa; [|apply _].
      apply Exists_exists in Hfa as (rw & Hrw & Hfa).
      apply not_Forall_Exists in Hfa; [|apply _].
      apply Exists_exists in Hfa as (cell & Hcell & Hnone).
      apply list_elem_of_lookup_1 in Hrw as [a Ha].
      apply list_elem_of_lookup_1 in Hcell as [b Hb].
      exists (Z.of_nat a), (Z.of_nat b).
      rewrite (get_of_lookup _ _ _ rw cell Ha Hb).
      destruct cell; [|done]. by destruct Hnone.
  - intros i j Hget. apply elem_of_completedSquares.
    pose proof (get_inside _ _ _ _ _ _ (wf_squares s Hs) Hget) as Hin.
    assert (Hown : ownerAt s i j = None) by (unfold ownerAt; by rewrite Hget).
    pose proof (acc_owner _ _ _ _ _ Hacc i j) as Hown'.
    destruct (completedBy s s' (isHType type) r c i j); [done|].
    exfalso. apply (Hall' i j).
    rewrite (get_squares s' i j Hs')
      by (by apply (accepted_inGrid _ _ _ _ _ i j Hacc)).
    by rewrite Hown', Hown.
  - intros type2 r2 c2. unfold IndexJs.handleMove. by rewrite Hov.
  - intros ms. by apply calls_over.
Qed.

Lemma isGameOver_on_last_square_witness :
  ∃ s', IndexJs.handleMove threeSides typeH 1 0 = Some (Accepted s') ∧
  (isGameOver s' = true ↔ ∀ i j, get (squares s') i j ≠ Some None) ∧
  isGameOver threeSides = false ∧
  (isGameOver s' = true →
   (∃ i j, get (squares threeSides) i j = Some None) ∧
   (∀ i j, get (squares threeSides) i j = Some None →
           (i, j) ∈ completedSquares threeSides s' (isHType typeH) 1 0) ∧
   (∀ type2 r2 c2, IndexJs.handleMove s' type2 r2 c2 = Some Rejected) ∧
   (∀ ms, calls s' ms = Some s')).
Proof.
  eexists. split; [reflexivity|].
  apply (isGameOver_on_last_square 1 1 threeSides typeH 1 0);
    [lia|lia|apply reachable_threeSides|reflexivity].
Defined.

(** * The list of unclaimed edges *)

Lemma pushFree_shaped type lines nr nc r c moves :
  shaped lines nr nc → 0 ≤ r < nr →
  pushFree type lines r moves c
  = Some (if default false (get lines r c) then moves
          else moves ++ [mkMove (JsString type) r c]).
Proof.
  intros Hsh Hr. unfold pushFree.
  by rewrite (truthyAt_get lines nr nc r c Hsh Hr).
Qed.

Lemma forEach_pushFree type lines nr nc r cs moves :
  shaped lines nr nc → 0 ≤ r < nr →
  forEach (pushFree type lines r) cs moves
  = Some (moves ++ (mkMove (JsString type) r
                    <$> filter (λ c, default false (get lines r c) = false) cs)).
Proof.
  intros Hsh Hr. revert moves. induction cs as [|c cs IH]; intros moves.
  - simpl. by rewrite app_nil_r.
  - cbn [forEach]. rewrite (pushFree_shaped type lines nr nc r c _ Hsh Hr).
    simpl. rewrite filter_cons. destruct (default false (get lines r c)) eqn:Hc.
    + rewrite decide_False by done. apply IH.
    + rewrite decide_True by done. rewrite IH, fmap_cons.
      by rewrite <- app_assoc.
Qed.

Lemma forEach_scan type lines nr nc rs moves :
  shaped lines nr nc → Forall (λ r, 0 ≤ r < nr) rs →
  forEach (λ moves r, forEach (pushFree type lines r) (seqZ 0 nc) moves)
          rs moves
  = Some (moves ++
          (r ← rs;
           mkMove (JsString type) r
             <$> filter (λ c, default false (get lines r c) = false)
                        (seqZ 0 nc))).
Proof.
  intros Hsh Hrs. revert moves.
  induction Hrs as [|r rs Hr Hrs IH]; intros moves.
  - simpl. by rewrite app_nil_r.
  - cbn [forEach]. rewrite (forEach_pushFree type lines nr nc r _ _ Hsh Hr).
    simpl. rewrite IH. by rewrite <- app_assoc.
Qed.

Lemma scanLines_shaped type lines nr nc moves :
  shaped lines nr nc →
  scanLines type lines nr nc moves = Some (moves ++ freeEdges type lines nr nc).
Proof.
  intros Hsh. apply (forEach_scan type lines nr nc); [done|].
  apply Forall_forall. intros r Hr%elem_of_seqZ. lia.
Qed.

Lemma availableMoves_wf s :
  wf s →
  availableMoves s
  = Some (freeEdges "h" (horizontalLines s) (rows s + 1) (cols s) ++
          freeEdges "v" (verticalLines s) (rows s) (cols s + 1)).
Proof.
  intros Hs. unfold availableMoves.
  rewrite (scanLines_shaped _ _ _ _ _ (wf_horizontal s Hs)). simpl.
  by rewrite (scanLines_shaped _ _ _ _ _ (wf_vertical s Hs)).
Qed.

Lemma elem_of_freeEdges type lines nr nc m :
  m ∈ freeEdges type lines nr nc ↔
  move_type m = JsString type ∧ 0 ≤ move_r m < nr ∧ 0 ≤ move_c m < nc ∧
  default false (get lines (move_r m) (move_c m)) = false.
Proof.
  unfold freeEdges. rewrite list_elem_of_bind. split.
  - intros (r & Hm & Hr). apply list_elem_of_fmap in Hm as (c & -> & Hc).
    apply list_elem_of_filter in Hc as [Hfree Hc].
    apply elem_of_seqZ in Hr. apply elem_of_seqZ in Hc. simpl.
    repeat split; done || lia.
  - intros (Ht & Hr & Hc & Hfree). exists (move_r m). split.
    + apply list_elem_of_fmap. exists (move_c m). split.
      * destruct m. simpl in *. by subst.
      * apply list_elem_of_filter. split; [done|]. apply elem_of_seqZ. lia.
    + apply elem_of_seqZ. lia.
Qed.

(** The list built by the double loops holds exactly the unclaimed edges
    of the board. *)
Lemma elem_of_availableMoves s moves m :
  wf s → availableMoves s = Some moves → m ∈ moves ↔ unclaimedEdge s m.
Proof.
  intros Hs. rewrite (availableMoves_wf s Hs). intros [= <-].
  rewrite elem_of_app, !elem_of_freeEdges. unfold unclaimedEdge, typeH, typeV.
  split.
  - intros [(Ht & Hr & Hc & Hfree)|(Ht & Hr & Hc & Hfree)]; rewrite Ht; simpl.
    + split; [by left|]. split; [lia|done].
    + split; [by right|]. split; [lia|done].
  - intros ([Ht|Ht] & Hb & Hfree); rewrite Ht in Hb, Hfree; simpl in Hb.
    + left. split; [done|]. split; [lia|]. split; [lia|done].
    + right. split; [done|]. split; [lia|]. split; [lia|done].
Qed.

(** * The loops of the local strategy *)

Lemma anyM_pure {A} (f : A → M bool) (g : A → bool) (l : list A) :
  (∀ x, f x = Some (g x)) → anyM f l = Some (existsb g l).
Proof.
  intros Hfg. induction l as [|x l IH]; simpl; [done|].
  rewrite Hfg. simpl. by destruct (g x).
Qed.

Lemma allM_pure {A} (f : A → M bool) (g : A → bool) (l : list A) :
  (∀ x, f x = Some (g x)) → allM f l = Some (forallb g l).
Proof.
  intros Hfg. induction l as [|x l IH]; simpl; [done|].
  rewrite Hfg. simpl. by destruct (g x).
Qed.

Lemma findM_pure {A} (f : A → M bool) (g : A → bool) (l : list A) :
  (∀ x, f x = Some (g x)) → findM f l = Some (List.find g l).
Proof.
  intros Hfg. induction l as [|x l IH]; simpl; [done|].
  rewrite Hfg. simpl. by destruct (g x).
Qed.

Lemma filterM_pure {A} (f : A → M bool) (g : A → bool) (l : list A) :
  (∀ x, f x = Some (g x)) → filterM f l = Some (List.filter g l).
Proof.
  intros Hfg. induction l as [|x l IH]; simpl; [done|].
  rewrite Hfg, IH. simpl. by destruct (g x).
Qed.

Lemma getSquareSideCount_sideCount s i j :
  wf s → getSquareSideCount s i j = Some (sideCount s i j).
Proof. apply getSquareSideCount_wf. Qed.

Lemma completesSquare_wf s m :
  wf s → completesSquare s m = Some (touchesThree s m).
Proof.
  intros Hs. apply anyM_pure. intros [i j].
  by rewrite (getSquareSideCount_sideCount s i j Hs).
Qed.

Lemma isSafeMove_wf s m : wf s → isSafeMove s m = Some (safeMove s m).
Proof.
  intros Hs. apply allM_pure. intros [i j].
  by rewrite (getSquareSideCount_sideCount s i j Hs).
Qed.

Lemma localFallback_wf s u moves :
  wf s → availableMoves s = Some moves →
  IndexJs.localFallback s u
  = Some match List.find (touchesThree s) moves with
         | Some m => Some m
         | None =>
             let safeMoves := List.filter (safeMove s) moves in
             if decide (0 < length safeMoves)%nat
             then index safeMoves (randomIndex u (length safeMoves))
             else index moves 0
         end.
Proof.
  intros Hs Hmoves. unfold IndexJs.localFallback. rewrite Hmoves. simpl.
  rewrite (findM_pure _ (touchesThree s)) by (intros; by apply completesSquare_wf).
  simpl. destruct (List.find (touchesThree s) moves); [done|].
  rewrite (filterM_pure _ (safeMove s)) by (intros; by apply isSafeMove_wf).
  done.
Qed.

Lemma touchesThree_true s m :
  wf s →
  touchesThree s m = true ↔
  ∃ i j, (i, j) ∈ squaresOfMove m ∧ getSquareSideCount s i j = Some 3.
Proof.
  intros Hs. unfold touchesThree. rewrite existsb_exists. split.
  - intros ([i j] & Hin%list_elem_of_In & Hthree%bool_decide_eq_true).
    exists i, j. split; [done|].
    rewrite (getSquareSideCount_sideCount s i j Hs). by f_equal.
  - intros (i & j & Hin & Hthree). exists (i, j).
    split; [by apply list_elem_of_In|]. apply bool_decide_eq_true. simpl.
    rewrite (getSquareSideCount_sideCount s i j Hs) in Hthree. congruence.
Qed.

Lemma safeMove_true s m :
  safeMove s m = true ↔ ∀ i j, (i, j) ∈ squaresOfMove m → sideCount s i j < 2.
Proof.
  unfold safeMove. rewrite forallb_forall. split.
  - intros Hall i j Hin%list_elem_of_In.
    specialize (Hall (i, j) Hin). by apply bool_decide_eq_true in Hall.
  - intros Hall [i j] Hin%list_elem_of_In.
    apply bool_decide_eq_true. by apply Hall.
Qed.


(** An unclaimed edge is accepted by [handleMove] while the game goes on. *)
Lemma unclaimedEdge_accepted s m :
  wf s → isGameOver s = false → unclaimedEdge s m →
  ∃ s', IndexJs.handleMove s (move_type m) (move_r m) (move_c m)
        = Some (Accepted s') ∧
        accepted s (isHType (move_type m)) (move_r m) (move_c m) s'.
Proof.
  intros Hs Hplaying (_ & Hb & Hfree).
  destruct (handleMove_wf s (move_type m) (move_r m) (move_c m) Hs)
    as [[[?|[Hout|?]] _]|(s' & Hm & _ & Hacc)]; try congruence.
  - by apply withinBounds_outOfBounds in Hb.
  - by exists s'.
Qed.

(** An accepted call of [handleMove] places an unclaimed edge. *)
Lemma accepted_unclaimedEdge s type r c s' :
  accepted s (isHType type) r c s' →
  ∃ m, unclaimedEdge s m ∧ isHType (move_type m) = isHType type ∧
       move_r m = r ∧ move_c m = c.
Proof.
  intros Hacc. pose proof (acc_bounds _ _ _ _ _ Hacc) as Hb.
  pose proof (acc_free _ _ _ _ _ Hacc) as Hfree.
  apply withinBounds_outOfBounds in Hb.
  exists (mkMove (if isHType type then typeH else typeV) r c).
  unfold unclaimedEdge. simpl. destruct (isHType type); simpl; auto.
Qed.

(** * The local strategy: completing a square *)




(** * The local strategy: safe moves *)

Lemma randomIndex_range u n :
  (0 <= u)%Q → (u < 1)%Q → (0 < n)%nat →
  0 ≤ randomIndex u n < Z.of_nat n.
Proof.
  intros Hu0 Hu1 Hn. unfold randomIndex.
  assert (Hn0 : (0 < inject_Z (Z.of_nat n))%Q).
  { change (inject_Z 0 < inject_Z (Z.of_nat n))%Q. rewrite <- Zlt_Qlt. lia. }
  split.
  - change 0 with (Qfloor 0). apply Qfloor_resp_le.
    apply Qmult_le_0_compat; [done|]. by apply Qlt_le_weak.
  - rewrite Zlt_Qlt.
    apply (Qle_lt_trans _ (u * inject_Z (Z.of_nat n))); [apply Qfloor_le|].
    apply (Qlt_le_trans _ (1 * inject_Z (Z.of_nat n)));
      [by apply Qmult_lt_compat_r|].
    apply Qle_lteq. right. apply Qmult_1_l.
Qed.

Lemma sidesOf_range s i j : 0 ≤ sidesOf s i j ≤ 4.
Proof.
  unfold sidesOf.
  destruct (edgeAt s true i j), (edgeAt s true (i + 1) j),
    (edgeAt s false i j), (edgeAt s false i (j + 1)); simpl; lia.
Qed.

Lemma no_three_sideCount s :
  (∀ i j, inGrid s i j → sidesOf s i j ≠ 3) ↔ (∀ i j, sideCount s i j ≠ 3).
Proof.
  unfold sideCount. split; intros Hno i j.
  - destruct (decide (inGrid s i j)) as [Hin|Hout]; [by apply Hno|lia].
  - intros Hin. specialize (Hno i j). by rewrite decide_True in Hno.
Qed.

Lemma accepted_sideCount s isH r c s' i j :
  accepted s isH r c s' →
  sideCount s' i j
  = if decide (inGrid s i j)
    then sidesOf s i j + b2z (bool_decide ((i, j) ∈ squaresToCheck isH r c))
    else -1.
Proof.
  intros Hacc. unfold sideCount.
  pose proof (accepted_inGrid _ _ _ _ _ i j Hacc) as Hgrid.
  destruct (decide (inGrid s i j)) as [Hin|Hout].
  - rewrite decide_True by (by apply Hgrid).
    apply (accepted_sidesOf _ _ _ _ _ i j Hacc).
  - rewrite decide_False; [done|]. by rewrite Hgrid.
Qed.

(** Placing an edge leaves no square with three sides exactly when, none
    having three before, the squares next to it have fewer than two. *)
Lemma accepted_no_three s isH r c s' :
  wf s → accepted s isH r c s' →
  (∀ i j, sideCount s i j ≠ 3) →
  (∀ i j, sideCount s' i j ≠ 3) ↔
  (∀ i j, (i, j) ∈ squaresToCheck isH r c → sideCount s i j < 2).
Proof.
  intros Hs Hacc Hno. split.
  - intros Hno' i j Hadj. specialize (Hno i j). specialize (Hno' i j).
    rewrite (accepted_sideCount _ _ _ _ _ i j Hacc) in Hno'.
    pose proof (accepted_sidesOf _ _ _ _ _ i j Hacc) as Hsides.
    pose proof (sidesOf_range s' i j). pose proof (sidesOf_range s i j).
    unfold sideCount in *. destruct (decide (inGrid s i j)); [|lia].
    rewrite bool_decide_eq_true_2 in Hno', Hsides by done.
    simpl in Hno', Hsides. lia.
  - intros Hsafe i j. specialize (Hno i j).
    rewrite (accepted_sideCount _ _ _ _ _ i j Hacc).
    destruct (decide ((i, j) ∈ squaresToCheck isH r c)) as [Hadj|Hadj].
    + specialize (Hsafe i j Hadj). unfold sideCount in *.
      destruct (decide (inGrid s i j)); [|lia].
      rewrite bool_decide_eq_true_2 by done. simpl. lia.
    + unfold sideCount in *. destruct (decide (inGrid s i j)); [|lia].
      rewrite bool_decide_eq_false_2 by done. simpl. lia.
Qed.

(** C7.  On a reachable session where the game goes on, no square of
    the board has exactly three claimed sides, and some edge can be
    placed without leaving a square with exactly three claimed sides:
    the local strategy returns a move, for every random draw in [0, 1),
    that move is an unclaimed edge, and placing it leaves no square of
    the board with exactly three claimed sides.  The sides of a square
    are counted on the two matrices of lines ([sidesOf]). *)
Theorem localFallback_leaves_no_three_sided_square nr nc s u :
  reachable nr nc s → isGameOver s = false →
  (0 <= u)%Q → (u < 1)%Q →
  (∀ i j, inGrid s i j → sidesOf s i j ≠ 3) →
  (∃ type0 r0 c0 s0,
     IndexJs.handleMove s type0 r0 c0 = Some (Accepted s0) ∧
     ∀ i j, inGrid s0 i j → sidesOf s0 i j ≠ 3) →
  ∃ m s',
    IndexJs.localFallback s u = Some (Some m) ∧
    unclaimedEdge s m ∧
    IndexJs.handleMove s (move_type m) (move_r m) (move_c m)
    = Some (Accepted s') ∧
    ∀ i j, inGrid s' i j → sidesOf s' i j ≠ 3.
Proof.
  intros Hs%reachable_wf Hplaying Hu0 Hu1 Hno (type0 & r0 & c0 & s0 & Hm0 & Hno0).
  destruct (handleMove_accepted s type0 r0 c0 s0 Hs Hm0) as [_ Hacc0].
  pose proof (proj1 (no_three_sideCount s) Hno) as Hnone. clear Hno.
  pose proof (proj1 (no_three_sideCount s0) Hno0) as Hnone0. clear Hno0.
  pose proof (proj1 (accepted_no_three s _ _ _ s0 Hs Hacc0 Hnone) Hnone0)
    as Hsafe0. clear Hnone0.
  destruct (accepted_unclaimedEdge s type0 r0 c0 s0 Hacc0)
    as (m0 & Hfree0 & HisH & Hr0 & Hc0).
  pose proof (availableMoves_wf s Hs) as Hmoves.
  rewrite (localFallback_wf s u _ Hs Hmoves).
  set (moves := freeEdges _ _ _ _ ++ freeEdges _ _ _ _) in *.
  destruct (List.find (touchesThree s) moves) as [m|] eqn:Hfind.
  { exfalso. apply find_some in Hfind as [_ Htouch].
    apply (touchesThree_true s m Hs) in Htouch as (i & j & _ & Hthree).
    apply (Hnone i j).
    rewrite (getSquareSideCount_sideCount s i j Hs) in Hthree. congruence. }
  simpl.
  assert (Hin0 : m0 ∈ List.filter (safeMove s) moves).
  { apply list_elem_of_In, filter_In. split.
    - by apply list_elem_of_In, (elem_of_availableMoves s moves m0 Hs Hmoves).
    - apply safeMove_true. unfold squaresOfMove. rewrite HisH, Hr0, Hc0.
      apply Hsafe0. }
  assert (Hlen : (0 < length (List.filter (safeMove s) moves))%nat).
  { destruct (List.filter (safeMove s) moves); [by apply elem_of_nil in Hin0|].
    simpl. lia. }
  rewrite decide_True by done.
  destruct (index_is_Some (List.filter (safeMove s) moves)
              (randomIndex u (length (List.filter (safeMove s) moves))))
    as [m Hm]; [by apply randomIndex_range|].
  rewrite Hm. apply index_Some in Hm as [_ Hm].
  apply list_elem_of_lookup_2, list_elem_of_In, filter_In in Hm
    as [Hin%list_elem_of_In Hsafe].
  apply (elem_of_availableMoves s moves m Hs Hmoves) in Hin.
  destruct (unclaimedEdge_accepted s m Hs Hplaying Hin) as (s' & Hmove & Hacc).
  exists m, s'. repeat (split; [done|]).
  apply (no_three_sideCount s').
  apply (accepted_no_three s _ _ _ s' Hs Hacc Hnone).
  by apply safeMove_true.
Qed.

(** Decides a statement about the sides of each square of a concrete
    board of two by two squares by looking at each square. *)
Ltac each_square_2x2 i j :=
  let Hin := fresh "Hin" in
  intros Hin; unfold inGrid in Hin; simpl in Hin;
  let Hi := fresh "Hi" in
  let Hj := fresh "Hj" in
  assert (Hi : i = 0 ∨ i = 1) by lia;
  assert (Hj : j = 0 ∨ j = 1) by lia;
  destruct Hi as [-> | ->], Hj as [-> | ->]; done.

Lemma localFallback_leaves_no_three_sided_square_witness :
  ∃ m s',
    IndexJs.localFallback twoSides (1 # 2) = Some (Some m) ∧
    unclaimedEdge twoSides m ∧
    IndexJs.handleMove twoSides (move_type m) (move_r m) (move_c m)
    = Some (Accepted s') ∧
    ∀ i j, inGrid s' i j → sidesOf s' i j ≠ 3.
Proof.
  apply (localFallback_leaves_no_three_sided_square 2 2 twoSides (1 # 2)).
  - apply reachable_twoSides.
  - reflexivity.
  - unfold Qle. simpl. lia.
  - unfold Qlt. simpl. lia.
  - intros i j. each_square_2x2 i j.
  - exists typeH, 2, 0. eexists. split; [reflexivity|].
    intros i j. each_square_2x2 i j.
Defined.

(** * The oracle *)

Lemma validTarget_wf s isH r c :
  wf s →
  validTarget (linesOf s isH) r c = true ↔
  withinBounds s isH r c ∧ edgeAt s isH r c = false.
Proof.
  intros Hs. pose proof (wf_lines s isH Hs) as Hsh.
  rewrite withinBounds_outOfBounds, (inBounds_range s isH r c Hs).
  unfold validTarget, edgeAt, get.
  destruct (index (linesOf s isH) r) as [rw|] eqn:Hrw; simpl.
  - destruct (shaped_row _ _ _ _ _ Hsh Hrw) as [Hlen Hr].
    destruct (index rw c) as [[]|] eqn:Hc; simpl.
    + split; [done|]. by intros [_ ?].
    + apply index_range in Hc. split; [intros _|done]. split; [lia|done].
    + split; [done|]. intros [[_ Hcr] _].
      destruct (index_is_Some rw c) as [b Hb]; [lia|]. congruence.
  - split; [done|]. intros [[Hr _] _].
    destruct (shaped_index _ _ _ r Hsh Hr) as (rw & Hrw' & _). congruence.
Qed.

(** In [index.js] a proposal that is out of range or already claimed
    makes [fetchAiMove] answer [null], as a failed call does, and
    [triggerAi] then plays what it plays after a failed call. *)
Lemma indexjs_fetchAiMove_invalid s haveKey move :
  wf s →
  ¬ (withinBounds s (isHType (move_type move)) (move_r move) (move_c move) ∧
     edgeAt s (isHType (move_type move)) (move_r move) (move_c move) = false) →
  IndexJs.fetchAiMove s haveKey (Some move) = Some None ∧
  IndexJs.fetchAiMove s haveKey (Some move) = IndexJs.fetchAiMove s haveKey None ∧
  ∀ thinking u,
    IndexJs.triggerAi {| gameState := s; isAiThinking := thinking |}
      haveKey (Some move) u
    = IndexJs.triggerAi {| gameState := s; isAiThinking := thinking |}
        haveKey None u.
Proof.
  intros Hs Hbad.
  assert (Hv : validTarget (linesOf s (isHType (move_type move)))
                 (move_r move) (move_c move) = false).
  { apply not_true_is_false. by rewrite (validTarget_wf s _ _ _ Hs). }
  assert (Hfetch : IndexJs.fetchAiMove s haveKey (Some move)
                   = IndexJs.fetchAiMove s haveKey None).
  { unfold IndexJs.fetchAiMove. by rewrite Hv. }
  assert (Hnull : IndexJs.fetchAiMove s haveKey None = Some None).
  { unfold IndexJs.fetchAiMove. destruct haveKey; simpl; [|done].
    rewrite (availableMoves_wf s Hs). simpl. by destruct (decide _). }
  split; [by rewrite Hfetch|]. split; [done|].
  intros thinking u. unfold IndexJs.triggerAi. simpl. by rewrite Hfetch.
Qed.

(** C8.  In [part_000] the oracle interface does substitute a move of its
    own: on the 4 x 4 board, after the human has claimed the horizontal
    edge (0, 0), an oracle that proposes this same edge makes
    [fetchAiMove] return the first unclaimed edge, horizontal (0, 1),
    which [triggerAi] then plays. *)
Theorem part000_fetchAiMove_substitutes :
  ∃ s, Part000.handleMove false (createInitialState 4 4) typeH 0 0
       = Some (Accepted s) ∧
       let proposal := mkMove typeH 0 0 in
       edgeAt s true 0 0 = true ∧
       Part000.fetchAiMove s true (λ _, Some proposal) 0
       = Some (Part000.Returned (Some (mkMove typeH 0 1))) ∧
       ∃ g', Part000.triggerAi {| gameState := s; isAiThinking := false |}
               true (λ _, Some proposal) (1 # 2) = Some g' ∧
             edgeAt (gameState g') true 0 1 = true ∧
             moveCount (gameState g') = 2.
Proof.
  eexists. split; [reflexivity|]. simpl.
  split; [reflexivity|]. split; [reflexivity|].
  eexists. split; [reflexivity|]. split; reflexivity.
Qed.

(** * The thinking guard *)

(** In [part_000] the move engine rejects every move while the computer
    is thinking and the human is to move. *)
Lemma part000_handleMove_guard s type r c :
  currentPlayer s = PLAYER_1 →
  Part000.handleMove true s type r c = Some Rejected ∧
  Part000.makeMove {| gameState := s; isAiThinking := true |} type r c
  = Some {| gameState := s; isAiThinking := true |}.
Proof.
  intros Hp.
  assert (Hrej : Part000.handleMove true s type r c = Some Rejected).
  { unfold Part000.handleMove. rewrite Hp. simpl. by destruct (isGameOver s). }
  split; [done|]. unfold Part000.makeMove. simpl. by rewrite Hrej.
Qed.

(** C9.  In [index.js] the move engine has no such guard: on the 4 x 4
    board, after the horizontal edges (0, 0) and (0, 1), the human is to
    move; with the thinking flag set, the move on the horizontal edge
    (0, 2) is accepted and changes the session. *)
Theorem indexjs_accepts_move_while_thinking :
  ∃ s, calls (createInitialState 4 4) [mkMove typeH 0 0; mkMove typeH 0 1]
       = Some s ∧
       currentPlayer s = PLAYER_1 ∧
       ∃ g', IndexJs.makeMove {| gameState := s; isAiThinking := true |}
               typeH 0 2 = Some g' ∧
             isAiThinking g' = true ∧
             gameState g' ≠ s ∧
             edgeAt (gameState g') true 0 2 = true ∧
             moveCount (gameState g') = 3.
Proof.
  eexists. split; [reflexivity|]. split; [reflexivity|].
  eexists. split; [reflexivity|]. split; [reflexivity|].
  split; [|split; reflexivity]. intros Heq. discriminate Heq.
Qed.

(** * Edge types other than the horizontal one *)

Lemma isHType_other type : type ≠ JsString "h" → isHType type = false.
Proof.
  intros Hne. destruct type as [|str]; [done|]. simpl.
  apply String.eqb_neq. congruence.
Qed.

Lemma moveBody_isHType s type type2 r c :
  isHType type = isHType type2 → moveBody s type r c = moveBody s type2 r c.
Proof. intros Heq. unfold moveBody. by rewrite Heq. Qed.

(** C10.  A call whose edge type is not the string h does in both files
    what the call with the string v does; on a reachable session of
    [index.js] it is rejected exactly when the game is over, the
    coordinates lie outside the bounds of a vertical edge, or the
    vertical edge is claimed. *)
Theorem other_type_is_vertical nr nc s thinking type r c :
  reachable nr nc s → type ≠ JsString "h" →
  IndexJs.handleMove s type r c = IndexJs.handleMove s typeV r c ∧
  Part000.handleMove thinking s type r c
  = Part000.handleMove thinking s typeV r c ∧
  (IndexJs.handleMove s type r c = Some Rejected ↔
   isGameOver s = true ∨ ¬ (0 ≤ r < rows s ∧ 0 ≤ c ≤ cols s)
   ∨ edgeAt s false r c = true).
Proof.
  intros Hs%reachable_wf Hne. pose proof (isHType_other type Hne) as HisH.
  pose proof (moveBody_isHType s type typeV r c HisH) as Hbody.
  split; [|split].
  - unfold IndexJs.handleMove. by rewrite Hbody.
  - unfold Part000.handleMove. by rewrite Hbody.
  - destruct (handleMove_wf s type r c Hs)
      as [[Hwhy Hrej]|(s' & Hacc & Hov & Hfacts)]; rewrite HisH in *.
    + split; [intros _|done].
      destruct Hwhy as [?|[Hout|?]]; [by left| |by right; right].
      right. left. unfold outOfBounds in Hout. lia.
    + rewrite Hacc. split; [done|].
      pose proof (acc_bounds _ _ _ _ _ Hfacts) as Hb.
      pose proof (acc_free _ _ _ _ _ Hfacts) as Hfree.
      unfold outOfBounds in Hb.
      intros [?|[?|?]]; [congruence|lia|congruence].
Qed.

Lemma other_type_is_vertical_witness :
  let s := createInitialState 4 4 in
  IndexJs.handleMove s JsUndefined 0 4 = IndexJs.handleMove s typeV 0 4 ∧
  Part000.handleMove false s JsUndefined 0 4
  = Part000.handleMove false s typeV 0 4 ∧
  (IndexJs.handleMove s JsUndefined 0 4 = Some Rejected ↔
   isGameOver s = true ∨ ¬ (0 ≤ 0 < rows s ∧ 0 ≤ 4 ≤ cols s)
   ∨ edgeAt s false 0 4 = true).
Proof.
  apply (other_type_is_vertical 4 4 (createInitialState 4 4) false
           JsUndefined 0 4 (reach_init 4 4)).
  discriminate.
Defined.

(** * Further properties of the move engine *)

Lemma extends_refl s : wf s → extends s s.
Proof. intros Hs. by split. Qed.

Lemma extends_trans s1 s2 s3 : extends s1 s2 → extends s2 s3 → extends s1 s3.
Proof.
  intros [Hw1 Hr1 Hc1 He1 Ho1] [Hw2 Hr2 Hc2 He2 Ho2].
  split; [done|congruence|congruence|auto|auto].
Qed.

Lemma accepted_extends s isH r c s' : accepted s isH r c s' → extends s s'.
Proof.
  intros Hacc. split.
  - apply (acc_wf _ _ _ _ _ Hacc).
  - apply (acc_rows _ _ _ _ _ Hacc).
  - apply (acc_cols _ _ _ _ _ Hacc).
  - intros h i j Hedge. rewrite (acc_edge _ _ _ _ _ Hacc), Hedge.
    apply orb_true_r.
  - intros i j p Hown. rewrite (acc_owner _ _ _ _ _ Hacc).
    unfold completedBy, fills. rewrite Hown.
    rewrite (bool_decide_eq_false_2 (Some p = None)) by done.
    by rewrite andb_false_r, andb_false_l, andb_false_r.
Qed.

Lemma calls_extends ms s s' : wf s → calls s ms = Some s' → extends s s'.
Proof.
  unfold calls. revert s. induction ms as [|m ms IH]; intros s Hs Hrun.
  - injection Hrun as <-. by apply extends_refl.
  - cbn [forEach] in Hrun.
    destruct (handleMove_wf s (move_type m) (move_r m) (move_c m) Hs)
      as [[_ Hrej]|(s1 & Hacc & _ & Hfacts)].
    + rewrite Hrej in Hrun. simpl in Hrun. by apply IH.
    + rewrite Hacc in Hrun. simpl in Hrun.
      apply (extends_trans s s1 s'); [by apply (accepted_extends _ _ _ _ _ Hfacts)|].
      apply IH; [apply (acc_wf _ _ _ _ _ Hfacts)|done].
Qed.

(** X1.  A claimed edge stays claimed: whatever calls of [handleMove]
    follow on a reachable session, accepted or not, an edge that was true
    is true afterwards. *)
Theorem claimed_edge_stays_claimed nr nc s ms s' isH r c :
  reachable nr nc s → calls s ms = Some s' →
  edgeAt s isH r c = true → edgeAt s' isH r c = true.
Proof.
  intros Hs%reachable_wf Hrun.
  apply (ext_edge _ _ (calls_extends ms s s' Hs Hrun)).
Qed.

Lemma claimed_edge_stays_claimed_witness :
  ∃ s', calls threeSides [mkMove typeH 0 0; mkMove typeH 1 0; mkMove typeV 0 1]
        = Some s' ∧
        edgeAt threeSides false 0 1 = true ∧ edgeAt s' false 0 1 = true.
Proof.
  eexists. split; [reflexivity|]. split; [reflexivity|].
  eapply (claimed_edge_stays_claimed 1 1 threeSides
            [mkMove typeH 0 0; mkMove typeH 1 0; mkMove typeV 0 1] _ false 0 1
            reachable_threeSides); reflexivity.
Defined.

(** X2.  An edge is claimed at most once in a game: after a call of
    [handleMove] was accepted, every later call on the same edge is
    rejected, whatever calls came in between. *)
Theorem edge_is_claimed_once nr nc s type r c s1 ms s2 type2 :
  reachable nr nc s →
  IndexJs.handleMove s type r c = Some (Accepted s1) →
  calls s1 ms = Some s2 →
  isHType type2 = isHType type →
  IndexJs.handleMove s2 type2 r c = Some Rejected.
Proof.
  intros Hs%reachable_wf Hm Hrun Htype.
  destruct (handleMove_accepted s type r c s1 Hs Hm) as [_ Hacc].
  pose proof (acc_wf _ _ _ _ _ Hacc) as Hs1.
  pose proof (calls_extends ms s1 s2 Hs1 Hrun) as Hext.
  assert (Hedge : edgeAt s2 (isHType type) r c = true).
  { apply (ext_edge _ _ Hext). rewrite (acc_edge _ _ _ _ _ Hacc).
    by rewrite bool_decide_eq_true_2. }
  destruct (handleMove_wf s2 type2 r c (ext_wf _ _ Hext))
    as [[_ Hrej]|(s3 & _ & _ & Hacc3)]; [done|].
  pose proof (acc_free _ _ _ _ _ Hacc3) as Hfree.
  rewrite Htype in Hfree. congruence.
Qed.

Lemma edge_is_claimed_once_witness :
  ∃ s1 s2,
    IndexJs.handleMove twoSides typeV 0 1 = Some (Accepted s1) ∧
    calls s1 [mkMove typeH 1 0; mkMove typeH 2 1] = Some s2 ∧
    IndexJs.handleMove s2 (JsString "x") 0 1 = Some Rejected.
Proof.
  eexists. eexists. split; [reflexivity|]. split; [reflexivity|].
  eapply (edge_is_claimed_once 2 2 twoSides typeV 0 1 _
            [mkMove typeH 1 0; mkMove typeH 2 1] _ (JsString "x")
            reachable_twoSides); reflexivity.
Defined.

(** X3.  The owner of a square is never overwritten: a square owned by a
    player on a reachable session is owned by the same player after any
    further calls of [handleMove]. *)
Theorem owner_is_never_overwritten nr nc s ms s' i j p :
  reachable nr nc s → calls s ms = Some s' →
  get (squares s) i j = Some (Some p) →
  get (squares s') i j = Some (Some p).
Proof.
  intros Hs%reachable_wf Hrun Hget.
  pose proof (calls_extends ms s s' Hs Hrun) as Hext.
  pose proof (get_inside _ _ _ _ _ _ (wf_squares s Hs) Hget) as Hin.
  assert (Hown : ownerAt s i j = Some p) by (unfold ownerAt; by rewrite Hget).
  rewrite (get_squares s' i j (ext_wf _ _ Hext)).
  - by rewrite (ext_owner _ _ Hext i j p Hown).
  - unfold inGrid. by rewrite (ext_rows _ _ Hext), (ext_cols _ _ Hext).
Qed.

Lemma owner_is_never_overwritten_witness :
  ∃ s s',
    calls (createInitialState 1 2)
      [mkMove typeH 0 0; mkMove typeH 1 0; mkMove typeV 0 0; mkMove typeV 0 1]
    = Some s ∧
    calls s [mkMove typeH 0 1; mkMove typeH 1 1; mkMove typeV 0 2] = Some s' ∧
    get (squares s) 0 0 = Some (Some PLAYER_2) ∧
    get (squares s') 0 0 = Some (Some PLAYER_2).
Proof.
  eexists. eexists. split; [reflexivity|]. split; [reflexivity|].
  split; [reflexivity|].
  eapply (owner_is_never_overwritten 1 2 _
            [mkMove typeH 0 1; mkMove typeH 1 1; mkMove typeV 0 2] _ 0 0
            PLAYER_2).
  - apply (reachable_calls 1 2
             [mkMove typeH 0 0; mkMove typeH 1 0; mkMove typeV 0 0;
              mkMove typeV 0 1] (createInitialState 1 2));
      [apply reach_init|reflexivity].
  - reflexivity.
  - reflexivity.
Defined.

Lemma get_replicate {A} (x : A) (nr nc : nat) r c y :
  get (replicate nr (replicate nc x)) r c = Some y → y = x.
Proof.
  intros (rw & Hrw & Hcell)%get_lookup.
  apply lookup_replicate in Hrw as [-> _].
  by apply lookup_replicate in Hcell as [-> _].
Qed.

Lemma edgeAt_createInitialState nr nc isH r c :
  edgeAt (createInitialState nr nc) isH r c = false.
Proof.
  unfold edgeAt. destruct (get _ r c) as [b|] eqn:Hget; [|done].
  destruct isH; simpl in Hget; by apply get_replicate in Hget as ->.
Qed.

Lemma ownerAt_createInitialState nr nc i j :
  ownerAt (createInitialState nr nc) i j = None.
Proof.
  unfold ownerAt. destruct (get _ i j) as [o|] eqn:Hget; [|done].
  simpl in Hget. by apply get_replicate in Hget as ->.
Qed.

Lemma complete_mono s isH r c s' i j :
  accepted s isH r c s' → complete s i j = true → complete s' i j = true.
Proof.
  intros Hacc. unfold complete. rewrite !andb_true_iff.
  rewrite !(acc_edge _ _ _ _ _ Hacc). intros [[[-> ->] ->] ->].
  by rewrite !orb_true_r.
Qed.

(** On a reachable session a square has an owner exactly when its four
    sides are claimed. *)
Lemma reachable_owned_iff_complete nr nc s i j :
  reachable nr nc s → inGrid s i j →
  ownerAt s i j ≠ None ↔ complete s i j = true.
Proof.
  intros Hreach. revert i j.
  induction Hreach as [|s type r c s' Hreach IH Hm]; intros i j Hin.
  - rewrite ownerAt_createInitialState. unfold complete.
    rewrite !edgeAt_createInitialState. simpl. split; done.
  - destruct (handleMove_accepted s type r c s' (reachable_wf _ _ _ Hreach) Hm)
      as [_ Hacc].
    apply (accepted_inGrid _ _ _ _ _ i j Hacc) in Hin.
    specialize (IH i j Hin).
    pose proof (acc_owner _ _ _ _ _ Hacc i j) as Hown.
    pose proof (accepted_sidesOf _ _ _ _ _ i j Hacc) as Hsides.
    unfold completedBy, fills in Hown.
    destruct (decide ((i, j) ∈ squaresToCheck (isHType type) r c)) as [Hadj|Hadj].
    + rewrite (bool_decide_eq_true_2 _ Hadj) in Hown.
      rewrite (bool_decide_eq_true_2 _ Hin) in Hown. simpl in Hown.
      destruct (ownerAt s i j) as [p|] eqn:Hold.
      * rewrite bool_decide_eq_false_2 in Hown by done. simpl in Hown.
        rewrite Hown. split; [intros _|done].
        apply (complete_mono _ _ _ _ _ i j Hacc). by apply IH.
      * rewrite bool_decide_eq_true_2 in Hown by done. simpl in Hown.
        rewrite Hown. destruct (complete s' i j); split; done.
    + rewrite (bool_decide_eq_false_2 _ Hadj) in Hown, Hsides.
      simpl in Hown, Hsides. rewrite Hown, IH, !complete_sidesOf. lia.
Qed.

(** X4.  On every reachable session a square has an owner exactly when
    its four sides are claimed, that is, when [getSquareSideCount]
    answers 4. *)
Theorem owned_iff_four_sides nr nc s i j :
  reachable nr nc s →
  (∃ p, get (squares s) i j = Some (Some p)) ↔
  getSquareSideCount s i j = Some 4.
Proof.
  intros Hreach. pose proof (reachable_wf _ _ _ Hreach) as Hs.
  rewrite (getSquareSideCount_Some s i j 4 Hs) by lia.
  rewrite <- complete_sidesOf. split.
  - intros [p Hget].
    pose proof (get_inside _ _ _ _ _ _ (wf_squares s Hs) Hget) as Hin.
    split; [done|]. apply (reachable_owned_iff_complete nr nc s i j Hreach Hin).
    unfold ownerAt. by rewrite Hget.
  - intros [Hin Hfull].
    apply (reachable_owned_iff_complete nr nc s i j Hreach Hin) in Hfull.
    rewrite (get_squares s i j Hs Hin).
    destruct (ownerAt s i j) as [p|]; [by exists p|done].
Qed.

Lemma owned_iff_four_sides_witness :
  ∃ s, calls doubleCross [mkMove typeV 0 1] = Some s ∧
       ((∃ p, get (squares s) 0 1 = Some (Some p)) ↔
        getSquareSideCount s 0 1 = Some 4).
Proof.
  eexists. split; [reflexivity|].
  eapply (owned_iff_four_sides 1 2 _ 0 1).
  apply (reachable_calls 1 2 [mkMove typeV 0 1] doubleCross);
    [apply reachable_doubleCross|reflexivity].
Defined.

(** * The turn, read on the lines *)

Lemma elem_of_gridSquares s i j : (i, j) ∈ gridSquares s ↔ inGrid s i j.
Proof.
  unfold gridSquares, inGrid. rewrite list_elem_of_bind. split.
  - intros (i' & (j' & [= -> ->] & Hj%elem_of_seqZ)%list_elem_of_fmap
            & Hi%elem_of_seqZ). lia.
  - intros [Hi Hj]. exists i. split; [|apply elem_of_seqZ; lia].
    apply list_elem_of_fmap. exists j. split; [done|]. apply elem_of_seqZ. lia.
Qed.

Lemma NoDup_gridSquares s : NoDup (gridSquares s).
Proof.
  unfold gridSquares. apply NoDup_bind.
  - intros i1 i2 sq _ _ (j1 & -> & _)%list_elem_of_fmap
      (j2 & Heq & _)%list_elem_of_fmap. by injection Heq.
  - intros i _. apply NoDup_fmap_2; [|apply NoDup_seqZ].
    intros j1 j2 Heq. by injection Heq.
  - apply NoDup_seqZ.
Qed.

(** On a reachable session the squares that the loop of [handleMove]
    gives to the mover are the squares of the board whose fourth side
    the move has claimed. *)
Lemma closedBy_completedBy nr nc s isH r c s' i j :
  reachable nr nc s → accepted s isH r c s' →
  inGrid s i j ∧ closedBy s s' i j = true ↔
  completedBy s s' isH r c i j = true.
Proof.
  intros Hreach Hacc.
  pose proof (accepted_sidesOf _ _ _ _ _ i j Hacc) as Hsides.
  unfold closedBy, completedBy, fills.
  rewrite !andb_true_iff, !bool_decide_eq_true, negb_true_iff. split.
  - intros (Hin & Hfull & Hopen).
    pose proof (reachable_owned_iff_complete nr nc s i j Hreach Hin) as Hown.
    split; [|split; [split; [done|]|done]].
    + destruct (decide ((i, j) ∈ squaresToCheck isH r c)) as [|Hadj]; [done|].
      rewrite bool_decide_eq_false_2 in Hsides by done. simpl in Hsides.
      apply complete_sidesOf in Hfull.
      assert (complete s i j = true) by (apply complete_sidesOf; lia).
      congruence.
    + destruct (ownerAt s i j) as [p|]; [|done].
      assert (complete s i j = true) by (by apply Hown). congruence.
  - intros (Hadj & (Hin & Hnone) & Hfull).
    pose proof (reachable_owned_iff_complete nr nc s i j Hreach Hin) as Hown.
    split; [done|]. split; [done|].
    apply not_true_is_false. intros Hwas. by apply Hown in Hwas.
Qed.

Lemma closedCount_completedCount nr nc s isH r c s' :
  reachable nr nc s → accepted s isH r c s' →
  closedCount s s' = completedCount s s' isH r c.
Proof.
  intros Hreach Hacc. unfold closedCount, completedCount.
  rewrite (sumWith_filter_length (λ sq, closedBy s s' sq.1 sq.2)).
  rewrite (sumWith_filter_length (λ sq, fills s s' sq.1 sq.2)).
  f_equal. apply Permutation_length, NoDup_Permutation.
  - apply NoDup_filter, NoDup_gridSquares.
  - apply NoDup_filter, NoDup_squaresToCheck.
  - intros [i j]. rewrite !list_elem_of_filter, elem_of_gridSquares. simpl.
    rewrite (and_comm _ (inGrid s i j)).
    rewrite (closedBy_completedBy nr nc s isH r c s' i j Hreach Hacc).
    unfold completedBy. rewrite andb_true_iff, bool_decide_eq_true. tauto.
Qed.

(** C2.  After an accepted move the turn has passed to the other player
    exactly when the move completed no square; after a move that
    completed one or two squares the same player is to move.  A square
    is completed by the move when its four sides are claimed after the
    move and were not all claimed before it; the squares are counted
    over the whole board, on the two matrices of lines.  Their number is
    0, 1 or 2, and it is the growth of the number of owned squares. *)
Theorem turn_passes_iff_no_square_closed nr nc s type r c s' :
  reachable nr nc s →
  IndexJs.handleMove s type r c = Some (Accepted s') →
  let n := closedCount s s' in
  n = ownedCount s' - ownedCount s ∧
  (currentPlayer s' = other (currentPlayer s) ↔ n = 0) ∧
  (n = 1 ∨ n = 2 → currentPlayer s' = currentPlayer s) ∧
  (n = 0 ∨ n = 1 ∨ n = 2).
Proof.
  intros Hreach Hm. pose proof (reachable_wf _ _ _ Hreach) as Hs.
  destruct (handleMove_accepted s type r c s' Hs Hm) as [_ Hacc].
  pose proof (accepted_ownedCount _ _ _ _ _ Hacc) as Hcount.
  pose proof (completedCount_range s s' (isHType type) r c) as Hrange.
  pose proof (acc_turn _ _ _ _ _ Hacc) as Hturn.
  pose proof (other_neq (currentPlayer s)) as Hne.
  simpl. rewrite (closedCount_completedCount nr nc s _ r c s' Hreach Hacc).
  split; [lia|].
  destruct (decide (completedCount s s' (isHType type) r c = 0)) as [Hz|Hz].
  - split; [done|]. split; lia.
  - split; [|split; [done|lia]]. split; [congruence|done].
Qed.

Lemma turn_passes_iff_no_square_closed_witness :
  ∃ s', IndexJs.handleMove threeSides typeH 1 0 = Some (Accepted s') ∧
        let n := closedCount threeSides s' in
        n = ownedCount s' - ownedCount threeSides ∧
        (currentPlayer s' = other (currentPlayer threeSides) ↔ n = 0) ∧
        (n = 1 ∨ n = 2 → currentPlayer s' = currentPlayer threeSides) ∧
        (n = 0 ∨ n = 1 ∨ n = 2).
Proof.
  eexists. split; [reflexivity|].
  apply (turn_passes_iff_no_square_closed 1 1 threeSides typeH 1 0 _
           reachable_threeSides).
  reflexivity.
Defined.

(** * Counting edges *)

(** An accepted move writes one cell of one matrix of lines, which was
    false, and leaves the other matrix alone. *)
Lemma handleMove_lines s type r c s' :
  wf s → IndexJs.handleMove s type r c = Some (Accepted s') →
  get (linesOf s (isHType type)) r c = Some false ∧
  assignAt (linesOf s (isHType type)) r c true
  = Some (linesOf s' (isHType type)) ∧
  linesOf s' (negb (isHType type)) = linesOf s (negb (isHType type)).
Proof.
  intros Hs Hm. unfold IndexJs.handleMove in Hm.
  destruct (isGameOver s); [done|]. unfold moveBody in Hm.
  set (isH := isHType type) in *.
  destruct (decide (outOfBounds s isH r c)) as [Hout|Hin]; [done|].
  pose proof (proj1 (inBounds_range s isH r c Hs) Hin) as [Hr Hc].
  rewrite (truthyAt_edge s isH r c Hs Hr) in Hm. simpl in Hm.
  destruct (edgeAt s isH r c) eqn:Hfree; [done|].
  destruct (assignAt_total _ _ _ r c true (wf_lines s isH Hs) Hr Hc)
    as [lines' Hl].
  rewrite Hl in Hm. simpl in Hm.
  destruct (forEach_claimStep (squaresToCheck isH r c) (withLine s isH lines')
              false (withLine_wf s isH r c lines' Hs Hl)
              (NoDup_squaresToCheck isH r c))
    as (s2 & Hloop & _ & Hb & _).
  rewrite Hloop in Hm. simpl in Hm. injection Hm as <-.
  destruct Hb as [_ _ Hh Hv _ _ _]. simpl in Hh, Hv.
  split; [|split].
  - destruct (shaped_get _ _ _ r c (wf_lines s isH Hs) Hr Hc) as [b Hb].
    unfold edgeAt in Hfree. rewrite Hb in Hfree. simpl in Hfree. by subst b.
  - rewrite Hl. f_equal. unfold linesOf. simpl. destruct isH; congruence.
  - unfold linesOf. simpl. destruct isH; simpl; congruence.
Qed.

Lemma sumWith_const {A} (g : A → Z) (k : Z) (l : list A) :
  Forall (λ x, g x = k) l → sumWith g l = Z.of_nat (length l) * k.
Proof.
  induction 1 as [|x l Hx _ IH]; simpl; [lia|]. rewrite Hx, IH. lia.
Qed.

Lemma countRow_split (rw : list bool) :
  countRow (λ b : bool, b) rw + countRow negb rw = Z.of_nat (length rw).
Proof.
  unfold countRow. induction rw as [|[] rw IH]; simpl in *; lia.
Qed.

Lemma countCells_split (m : list (list bool)) nr nc :
  shaped m nr nc →
  countCells (λ b : bool, b) m + countCells negb m = nr * nc.
Proof.
  intros [<- Hrows]. unfold countCells. rewrite <- sumWith_plus.
  apply sumWith_const. eapply Forall_impl; [exact Hrows|].
  intros rw <-. apply countRow_split.
Qed.

Lemma edges_split nr nc s :
  reachable nr nc s → edgesClaimed s + edgesFree s = totalEdges nr nc.
Proof.
  intros Hreach. pose proof (reachable_wf _ _ _ Hreach) as Hs.
  destruct (reachable_dims _ _ _ Hreach) as [Hr Hc].
  pose proof (countCells_split _ _ _ (wf_horizontal s Hs)) as Hh.
  pose proof (countCells_split _ _ _ (wf_vertical s Hs)) as Hv.
  unfold edgesClaimed, edgesFree, totalEdges. rewrite <- Hr, <- Hc. lia.
Qed.

Lemma reachable_moveCount nr nc s :
  reachable nr nc s → moveCount s = edgesClaimed s.
Proof.
  induction 1 as [|s type r c s' Hreach IH Hm].
  - unfold edgesClaimed, countCells. simpl.
    rewrite !sumWith_replicate_0; [done| |];
      unfold countRow; by apply sumWith_replicate_0.
  - pose proof (reachable_wf _ _ _ Hreach) as Hs.
    destruct (handleMove_accepted s type r c s' Hs Hm) as [_ Hacc].
    destruct (handleMove_lines s type r c s' Hs Hm) as (Hold & Hnew & Hsame).
    pose proof (countCells_assignAt (λ b : bool, b) _ _ _ _ _ _ Hold Hnew)
      as Hcount.
    rewrite (acc_moveCount _ _ _ _ _ Hacc), IH. unfold edgesClaimed.
    destruct (isHType type); simpl in *; rewrite Hcount, Hsame; lia.
Qed.

Lemma sumWith_seqZ_lookup {A} (G : Z → Z) (H : A → Z) (l : list A) k :
  (∀ i x, l !! i = Some x → G (k + Z.of_nat i) = H x) →
  sumWith G (seqZ k (Z.of_nat (length l))) = sumWith H l.
Proof.
  revert k. induction l as [|x l IH]; intros k HGH; [done|].
  rewrite seqZ_cons by (simpl; lia).
  replace (Z.pred (Z.of_nat (length (x :: l)))) with (Z.of_nat (length l))
    by (simpl; lia).
  simpl. rewrite (IH (Z.succ k)).
  - f_equal. rewrite <- (HGH 0%nat x eq_refl). f_equal. lia.
  - intros i y Hi. rewrite <- (HGH (S i) y Hi). f_equal. lia.
Qed.

Lemma length_bind_sumWith {A B} (f : A → list B) (l : list A) :
  Z.of_nat (length (l ≫= f)) = sumWith (λ x, Z.of_nat (length (f x))) l.
Proof.
  induction l as [|x l IH]; [done|].
  rewrite bind_cons, List.length_app. simpl. lia.
Qed.

Lemma length_freeEdges type lines nr nc :
  shaped lines nr nc →
  Z.of_nat (length (freeEdges type lines nr nc)) = countCells negb lines.
Proof.
  intros [<- Hrows]. unfold freeEdges. rewrite length_bind_sumWith.
  apply sumWith_seqZ_lookup. intros i rw Hrw. rewrite length_fmap.
  pose proof (Forall_lookup_1 _ _ _ _ Hrows Hrw) as Hlen. simpl in Hlen.
  rewrite (list_filter_iff _
             (λ c, negb (default false (get lines (0 + Z.of_nat i) c)) = true)).
  2:{ intros c. by destruct (default false _). }
  rewrite <- (sumWith_filter_length
                (λ c, negb (default false (get lines (0 + Z.of_nat i) c)))).
  rewrite <- Hlen. apply sumWith_seqZ_lookup. intros j b Hb.
  replace (0 + Z.of_nat i) with (Z.of_nat i) by lia.
  replace (0 + Z.of_nat j) with (Z.of_nat j) by lia.
  by rewrite (get_of_lookup lines i j rw b Hrw Hb).
Qed.

Lemma mkMove_inj type r : Inj (=) (=) (mkMove type r).
Proof. intros c1 c2 Heq. by injection Heq. Qed.

Lemma NoDup_freeEdges type lines nr nc : NoDup (freeEdges type lines nr nc).
Proof.
  unfold freeEdges. apply NoDup_bind.
  - intros r1 r2 m _ _ (c1 & -> & _)%list_elem_of_fmap
      (c2 & Heq & _)%list_elem_of_fmap. by injection Heq.
  - intros r _. apply (@NoDup_fmap_2 _ _ _ (mkMove_inj _ r)).
    apply NoDup_filter, NoDup_seqZ.
  - apply NoDup_seqZ.
Qed.

Lemma reachable_availableMoves nr nc s :
  reachable nr nc s →
  ∃ moves,
    availableMoves s = Some moves ∧ NoDup moves ∧
    (∀ m, m ∈ moves ↔ unclaimedEdge s m) ∧
    moveCount s = edgesClaimed s ∧
    Z.of_nat (length moves) = totalEdges nr nc - moveCount s.
Proof.
  intros Hreach. pose proof (reachable_wf _ _ _ Hreach) as Hs.
  pose proof (availableMoves_wf s Hs) as Hmoves.
  eexists. split; [exact Hmoves|]. split; [|split; [|split]].
  - apply NoDup_app. split; [apply NoDup_freeEdges|].
    split; [|apply NoDup_freeEdges].
    intros m [Hh _]%elem_of_freeEdges [Hv _]%elem_of_freeEdges. congruence.
  - intros m. by apply elem_of_availableMoves.
  - by apply (reachable_moveCount nr nc).
  - rewrite List.length_app, Nat2Z.inj_add.
    rewrite (length_freeEdges _ _ _ _ (wf_horizontal s Hs)).
    rewrite (length_freeEdges _ _ _ _ (wf_vertical s Hs)).
    pose proof (edges_split nr nc s Hreach) as Hsplit.
    rewrite (reachable_moveCount nr nc s Hreach).
    unfold edgesFree in Hsplit. lia.
Qed.


(** X5.  On a reachable session of a board of [nr] by [nc] squares the
    double loops of [fetchAiMove] and [triggerAi] list every unclaimed
    edge once; [moveCount] is the number of claimed edges, so the list
    has as many entries as the board has edges, less [moveCount]. *)
Theorem availableMoves_counts_free_edges nr nc s :
  reachable nr nc s →
  ∃ moves,
    availableMoves s = Some moves ∧ NoDup moves ∧
    (∀ m, m ∈ moves ↔ unclaimedEdge s m) ∧
    moveCount s = edgesClaimed s ∧
    Z.of_nat (length moves) = totalEdges nr nc - moveCount s.
Proof. apply reachable_availableMoves. Qed.

Lemma availableMoves_counts_free_edges_witness :
  ∃ moves,
    availableMoves twoSides = Some moves ∧ NoDup moves ∧
    (∀ m, m ∈ moves ↔ unclaimedEdge twoSides m) ∧
    moveCount twoSides = edgesClaimed twoSides ∧
    Z.of_nat (length moves) = totalEdges 2 2 - moveCount twoSides.
Proof.
  exact (availableMoves_counts_free_edges 2 2 twoSides reachable_twoSides).
Defined.

(** * The end of the game and the legal moves *)

(** On a board with at least one square every edge is a side of some
    square of the grid. *)
Lemma edge_has_square s isH r c :
  0 < rows s → 0 < cols s → withinBounds s isH r c →
  ∃ i j, inGrid s i j ∧
         (complete s i j = true → edgeAt s isH r c = true).
Proof.
  intros Hrows Hcols Hb. unfold withinBounds in Hb. destruct isH.
  - destruct (decide (r < rows s)) as [Hlt|Hge].
    + exists r, c. split; [unfold inGrid; lia|]. unfold complete.
      rewrite !andb_true_iff. tauto.
    + exists (r - 1), c. split; [unfold inGrid; lia|]. unfold complete.
      rewrite !andb_true_iff. replace (r - 1 + 1) with r by lia. tauto.
  - destruct (decide (c < cols s)) as [Hlt|Hge].
    + exists r, c. split; [unfold inGrid; lia|]. unfold complete.
      rewrite !andb_true_iff. tauto.
    + exists r, (c - 1). split; [unfold inGrid; lia|]. unfold complete.
      rewrite !andb_true_iff. replace (c - 1 + 1) with c by lia. tauto.
Qed.

Lemma edge_claimed_or_unclaimed s isH r c :
  withinBounds s isH r c →
  edgeAt s isH r c = true ∨
  unclaimedEdge s (mkMove (if isH then typeH else typeV) r c).
Proof.
  intros Hb. destruct (edgeAt s isH r c) eqn:Hedge; [by left|right].
  unfold unclaimedEdge. destruct isH; simpl; auto.
Qed.

(** On a reachable session of a board with at least one square the game
    is over exactly when no edge is left to claim. *)
Lemma reachable_over_iff_no_edge nr nc s :
  (0 < nr)%nat → (0 < nc)%nat → reachable nr nc s →
  isGameOver s = true ↔ ∀ m, ¬ unclaimedEdge s m.
Proof.
  intros Hnr Hnc Hreach. pose proof (reachable_wf _ _ _ Hreach) as Hs.
  destruct (reachable_dims _ _ _ Hreach) as [Hr Hc].
  rewrite (reachable_isGameOver nr nc s Hnr Hnc Hreach).
  rewrite (allOwned_iff s Hs), (every_owned_cell s Hs). split.
  - intros Hall m (_ & Hb & Hfree).
    destruct (edge_has_square s _ _ _ ltac:(lia) ltac:(lia) Hb)
      as (i & j & Hin & Hside).
    rewrite Hside in Hfree; [done|].
    by apply (reachable_owned_iff_complete nr nc s i j Hreach Hin), Hall.
  - intros Hnone i j Hin.
    apply (reachable_owned_iff_complete nr nc s i j Hreach Hin).
    destruct Hin as [Hi Hj]. unfold complete. rewrite !andb_true_iff.
    repeat split.
    + destruct (edge_claimed_or_unclaimed s true i j) as [|Hfree];
        [unfold withinBounds; lia|done|by destruct (Hnone _ Hfree)].
    + destruct (edge_claimed_or_unclaimed s true (i + 1) j) as [|Hfree];
        [unfold withinBounds; lia|done|by destruct (Hnone _ Hfree)].
    + destruct (edge_claimed_or_unclaimed s false i j) as [|Hfree];
        [unfold withinBounds; lia|done|by destruct (Hnone _ Hfree)].
    + destruct (edge_claimed_or_unclaimed s false i (j + 1)) as [|Hfree];
        [unfold withinBounds; lia|done|by destruct (Hnone _ Hfree)].
Qed.

Lemma sumWith_nonneg {A} (g : A → Z) (l : list A) :
  (∀ x, 0 ≤ g x) → 0 ≤ sumWith g l.
Proof.
  intros Hg. induction l as [|x l IH]; simpl; [lia|]. specialize (Hg x). lia.
Qed.

Lemma edgesClaimed_nonneg s : 0 ≤ edgesClaimed s.
Proof.
  unfold edgesClaimed, countCells.
  pose proof (sumWith_nonneg (countRow (λ b : bool, b)) (horizontalLines s)
                (λ rw, sumWith_b2z_nonneg _ rw)).
  pose proof (sumWith_nonneg (countRow (λ b : bool, b)) (verticalLines s)
                (λ rw, sumWith_b2z_nonneg _ rw)).
  lia.
Qed.

(** X6.  On a reachable session of a board with at least one square the
    game is over exactly when the list of available moves is empty, that
    is, when [moveCount] has reached the number of edges of the board:
    every game ends after exactly that many accepted moves, and until
    then a legal move exists. *)
Theorem game_over_iff_no_move_left nr nc s :
  (0 < nr)%nat → (0 < nc)%nat → reachable nr nc s →
  (isGameOver s = true ↔ availableMoves s = Some []) ∧
  (isGameOver s = true ↔ moveCount s = totalEdges nr nc) ∧
  (isGameOver s = false → ∃ m, unclaimedEdge s m) ∧
  0 ≤ moveCount s ≤ totalEdges nr nc.
Proof.
  intros Hnr Hnc Hreach.
  destruct (reachable_availableMoves nr nc s Hreach)
    as (moves & Hmoves & _ & Hin & Hcount & Hlen).
  pose proof (edgesClaimed_nonneg s) as Hpos.
  pose proof (reachable_over_iff_no_edge nr nc s Hnr Hnc Hreach) as Hover.
  assert (Hempty : moves = [] ↔ ∀ m, ¬ unclaimedEdge s m).
  { split.
    - intros -> m Hm%Hin. by apply elem_of_nil in Hm.
    - intros Hnone. destruct moves as [|m moves]; [done|].
      destruct (Hnone m). apply Hin. by left. }
  split; [|split; [|split]].
  - rewrite Hover, <- Hempty, Hmoves. split; [by intros ->|by intros [= ->]].
  - rewrite Hover, <- Hempty. split.
    + intros ->. simpl in Hlen. lia.
    + intros Hall. destruct moves; [done|]. simpl in Hlen. lia.
  - intros Hplaying. destruct moves as [|m moves].
    + assert (Hov : isGameOver s = true) by (by apply Hover, Hempty).
      congruence.
    + exists m. apply Hin. by left.
  - lia.
Qed.

Lemma game_over_iff_no_move_left_witness :
  (isGameOver threeSides = true ↔ availableMoves threeSides = Some []) ∧
  (isGameOver threeSides = true ↔ moveCount threeSides = totalEdges 1 1) ∧
  (isGameOver threeSides = false → ∃ m, unclaimedEdge threeSides m) ∧
  0 ≤ moveCount threeSides ≤ totalEdges 1 1.
Proof.
  apply (game_over_iff_no_move_left 1 1 threeSides);
    [lia|lia|apply reachable_threeSides].
Defined.

(** * The final score *)

Lemma countRow_all {A} (f : A → bool) (rw : list A) :
  forallb f rw = true → countRow f rw = Z.of_nat (length rw).
Proof.
  unfold countRow. induction rw as [|x rw IH]; [done|]. simpl.
  intros [-> Hrest]%andb_true_iff. rewrite IH by done. simpl. lia.
Qed.

Lemma ownedCount_allOwned s :
  wf s → allOwned (squares s) = true → ownedCount s = rows s * cols s.
Proof.
  intros Hs Hall. destruct (wf_squares s Hs) as [Hlen Hrows].
  unfold ownedCount, countCells. rewrite <- Hlen. apply sumWith_const.
  unfold allOwned in Hall. rewrite forallb_forall in Hall.
  apply Forall_forall. intros rw Hrw.
  rewrite (countRow_all _ rw) by (by apply Hall, list_elem_of_In).
  by apply (proj1 (Forall_forall _ _) Hrows).
Qed.

Lemma reachable_final_owned nr nc s :
  (0 < nr)%nat → (0 < nc)%nat → reachable nr nc s → isGameOver s = true →
  ownedBy s PLAYER_1 + ownedBy s PLAYER_2 = Z.of_nat nr * Z.of_nat nc.
Proof.
  intros Hnr Hnc Hreach Hov. pose proof (reachable_wf _ _ _ Hreach) as Hs.
  destruct (reachable_dims _ _ _ Hreach) as [<- <-].
  rewrite <- ownedCount_split. apply (ownedCount_allOwned s Hs).
  by rewrite <- (reachable_isGameOver nr nc s Hnr Hnc Hreach).
Qed.

(** X7.  When a game on a board of [nr] by [nc] squares is over, the two
    scores add up to the number of squares of the board. *)
Theorem final_scores_add_up nr nc s :
  (0 < nr)%nat → (0 < nc)%nat → reachable nr nc s → isGameOver s = true →
  score_PLAYER_1 (scores s) + score_PLAYER_2 (scores s)
  = Z.of_nat nr * Z.of_nat nc.
Proof.
  intros Hnr Hnc Hreach Hov.
  pose proof (reachable_scores nr nc s PLAYER_1 Hreach) as H1.
  pose proof (reachable_scores nr nc s PLAYER_2 Hreach) as H2.
  pose proof (reachable_final_owned nr nc s Hnr Hnc Hreach Hov).
  simpl in H1, H2. lia.
Qed.

Lemma final_scores_add_up_witness :
  ∃ s, calls doubleCross [mkMove typeV 0 1] = Some s ∧
       isGameOver s = true ∧
       score_PLAYER_1 (scores s) + score_PLAYER_2 (scores s)
       = Z.of_nat 1 * Z.of_nat 2.
Proof.
  eexists. split; [reflexivity|]. split; [reflexivity|].
  apply (final_scores_add_up 1 2); [lia|lia| |reflexivity].
  apply (reachable_calls 1 2 [mkMove typeV 0 1] doubleCross);
    [apply reachable_doubleCross|reflexivity].
Defined.

(** X8.  When a game is over, [showGameOver] announces the human as the
    winner exactly when the human owns more than half of the squares,
    the computer exactly when the human owns fewer than half, and a tie
    exactly when the human owns half of them. *)
Theorem showGameOver_names_the_majority nr nc s :
  (0 < nr)%nat → (0 < nc)%nat → reachable nr nc s → isGameOver s = true →
  (winnerText s = "You Won!"%string
   ↔ Z.of_nat nr * Z.of_nat nc < 2 * ownedBy s PLAYER_1) ∧
  (winnerText s = "AI Wins!"%string
   ↔ 2 * ownedBy s PLAYER_1 < Z.of_nat nr * Z.of_nat nc) ∧
  (winnerText s = "It's a Tie!"%string
   ↔ 2 * ownedBy s PLAYER_1 = Z.of_nat nr * Z.of_nat nc).
Proof.
  intros Hnr Hnc Hreach Hov.
  pose proof (reachable_scores nr nc s PLAYER_1 Hreach) as H1.
  pose proof (reachable_scores nr nc s PLAYER_2 Hreach) as H2.
  pose proof (reachable_final_owned nr nc s Hnr Hnc Hreach Hov) as Hsum.
  simpl in H1, H2. unfold winnerText. rewrite H1, H2.
  destruct (decide (ownedBy s PLAYER_2 < ownedBy s PLAYER_1)) as [Hgt|Hle].
  { repeat split; intros; (done || lia). }
  destruct (decide (ownedBy s PLAYER_1 < ownedBy s PLAYER_2)) as [Hlt|Hge].
  { repeat split; intros; (done || lia). }
  repeat split; intros; (done || lia).
Qed.

Lemma showGameOver_names_the_majority_witness :
  ∃ s, calls doubleCross [mkMove typeV 0 1] = Some s ∧
       isGameOver s = true ∧
       (winnerText s = "You Won!"%string
        ↔ Z.of_nat 1 * Z.of_nat 2 < 2 * ownedBy s PLAYER_1) ∧
       (winnerText s = "AI Wins!"%string
        ↔ 2 * ownedBy s PLAYER_1 < Z.of_nat 1 * Z.of_nat 2) ∧
       (winnerText s = "It's a Tie!"%string
        ↔ 2 * ownedBy s PLAYER_1 = Z.of_nat 1 * Z.of_nat 2).
Proof.
  eexists. split; [reflexivity|]. split; [reflexivity|].
  apply (showGameOver_names_the_majority 1 2); [lia|lia| |reflexivity].
  apply (reachable_calls 1 2 [mkMove typeV 0 1] doubleCross);
    [apply reachable_doubleCross|reflexivity].
Defined.

(** * The oracle of [index.js] *)

Lemma free_edge_accepted s type r c :
  wf s → isGameOver s = false →
  withinBounds s (isHType type) r c → edgeAt s (isHType type) r c = false →
  ∃ s', IndexJs.handleMove s type r c = Some (Accepted s') ∧
        accepted s (isHType type) r c s'.
Proof.
  intros Hs Hplaying Hb Hfree.
  destruct (handleMove_wf s type r c Hs)
    as [[[?|[Hout|?]] _]|(s' & Hm & _ & Hacc)]; try congruence.
  - by apply withinBounds_outOfBounds in Hb.
  - by exists s'.
Qed.

Lemma free_edge_available s isH r c moves :
  wf s → availableMoves s = Some moves →
  withinBounds s isH r c → edgeAt s isH r c = false →
  moves ≠ [].
Proof.
  intros Hs Hmoves Hb Hfree ->.
  destruct (edge_claimed_or_unclaimed s isH r c Hb) as [|Hm]; [congruence|].
  apply (elem_of_availableMoves s [] _ Hs Hmoves) in Hm.
  by apply elem_of_nil in Hm.
Qed.

Lemma indexjs_fetchAiMove_result s haveKey reply :
  wf s →
  ∃ res,
    IndexJs.fetchAiMove s haveKey reply = Some res ∧
    ∀ m, res = Some m ↔
         haveKey = true ∧ reply = Some m ∧
         withinBounds s (isHType (move_type m)) (move_r m) (move_c m) ∧
         edgeAt s (isHType (move_type m)) (move_r m) (move_c m) = false.
Proof.
  intros Hs. unfold IndexJs.fetchAiMove. destruct haveKey; simpl.
  2:{ exists None. split; [done|]. intros m. split; [done|]. by intros [? _]. }
  pose proof (availableMoves_wf s Hs) as Hmoves. rewrite Hmoves. simpl.
  destruct reply as [move|].
  2:{ exists None. split; [by destruct (decide _)|].
      intros m. split; [done|]. by intros (_ & ? & _). }
  pose proof (validTarget_wf s (isHType (move_type move)) (move_r move)
                (move_c move) Hs) as Hvalid.
  destruct (validTarget _ _ _) eqn:Hv.
  - destruct (proj1 Hvalid eq_refl) as [Hb Hfree].
    pose proof (free_edge_available s _ _ _ _ Hs Hmoves Hb Hfree) as Hne.
    rewrite decide_False by (by intros ?%nil_length_inv).
    exists (Some move). split; [done|]. intros m. split.
    + by intros [= <-].
    + by intros (_ & [= <-] & _).
  - exists None. split; [by destruct (decide _)|].
    intros m. split; [done|]. intros (_ & [= <-] & Hb & Hfree).
    assert (false = true) by (by apply Hvalid). done.
Qed.

(** X9.  [fetchAiMove] of [index.js] always ends; it returns a move
    exactly when the key is set and the oracle's reply targets an edge
    of the board that is unclaimed, and then it is that reply; such a
    move is accepted by [handleMove] while the game goes on. *)
Theorem indexjs_fetchAiMove_returns_legal_reply nr nc s haveKey reply :
  reachable nr nc s →
  ∃ res,
    IndexJs.fetchAiMove s haveKey reply = Some res ∧
    (∀ m, res = Some m ↔
          haveKey = true ∧ reply = Some m ∧
          withinBounds s (isHType (move_type m)) (move_r m) (move_c m) ∧
          edgeAt s (isHType (move_type m)) (move_r m) (move_c m) = false) ∧
    (∀ m, res = Some m → isGameOver s = false →
          ∃ s', IndexJs.handleMove s (move_type m) (move_r m) (move_c m)
                = Some (Accepted s')).
Proof.
  intros Hs%reachable_wf.
  destruct (indexjs_fetchAiMove_result s haveKey reply Hs) as (res & Hres & Hiff).
  exists res. split; [done|]. split; [done|].
  intros m (_ & _ & Hb & Hfree)%Hiff Hplaying.
  destruct (free_edge_accepted s _ _ _ Hs Hplaying Hb Hfree) as (s' & Hm & _).
  by exists s'.
Qed.

Lemma indexjs_fetchAiMove_returns_legal_reply_witness :
  ∃ res,
    IndexJs.fetchAiMove twoSides true (Some (mkMove (JsString "x") 1 2))
    = Some res ∧
    (∀ m, res = Some m ↔
          true = true ∧ Some (mkMove (JsString "x") 1 2) = Some m ∧
          withinBounds twoSides (isHType (move_type m)) (move_r m) (move_c m) ∧
          edgeAt twoSides (isHType (move_type m)) (move_r m) (move_c m)
          = false) ∧
    (∀ m, res = Some m → isGameOver twoSides = false →
          ∃ s', IndexJs.handleMove twoSides (move_type m) (move_r m) (move_c m)
                = Some (Accepted s')).
Proof.
  exact (indexjs_fetchAiMove_returns_legal_reply 2 2 twoSides true
           (Some (mkMove (JsString "x") 1 2)) reachable_twoSides).
Defined.

(** * The local strategy: what it returns *)

Lemma index_head {A} (l : list A) : index l 0 = head l.
Proof. by destruct l. Qed.


Lemma localFallback_result s u :
  wf s → (0 <= u)%Q → (u < 1)%Q →
  ∃ res, IndexJs.localFallback s u = Some res ∧
         (∀ m, res = Some m → unclaimedEdge s m) ∧
         (res = None ↔ ∀ m, ¬ unclaimedEdge s m).
Proof.
  intros Hs Hu0 Hu1. pose proof (availableMoves_wf s Hs) as Hmoves.
  rewrite (localFallback_wf s u _ Hs Hmoves).
  set (moves := freeEdges _ _ _ _ ++ freeEdges _ _ _ _) in *.
  pose proof (λ m, elem_of_availableMoves s moves m Hs Hmoves) as Hin.
  assert (Hsome : ∀ m, m ∈ moves →
    (∀ m', Some m = Some m' → unclaimedEdge s m') ∧
    (Some m = None ↔ ∀ m', ¬ unclaimedEdge s m')).
  { intros m Hm. split; [by intros m' [= <-]; apply Hin|].
    split; [done|]. intros Hnone. destruct (Hnone m). by apply Hin. }
  eexists. split; [reflexivity|].
  destruct (List.find (touchesThree s) moves) as [m|] eqn:Hfind.
  { apply find_some in Hfind as [Hm%list_elem_of_In _]. by apply Hsome. }
  simpl. destruct (decide (0 < length (List.filter (safeMove s) moves))%nat)
    as [Hlen|Hlen].
  - destruct (index_is_Some (List.filter (safeMove s) moves)
                (randomIndex u (length (List.filter (safeMove s) moves))))
      as [m Hm]; [by apply randomIndex_range|].
    rewrite Hm. apply Hsome. apply index_Some in Hm as [_ Hm].
    by apply list_elem_of_lookup_2, list_elem_of_In, filter_In in Hm
      as [?%list_elem_of_In _].
  - rewrite index_head. destruct moves as [|m moves']; simpl.
    + split; [done|]. split; [|done]. intros _ m Hm%Hin.
      by apply elem_of_nil in Hm.
    + apply Hsome. by left.
Qed.

(** X10.  For every random draw in [0, 1) the local strategy of
    [triggerAi] ends; it returns no move exactly when no edge is left to
    claim, and a move it returns is an unclaimed edge of the board, which
    [handleMove] accepts while the game goes on. *)
Theorem localFallback_returns_a_legal_move nr nc s u :
  reachable nr nc s → (0 <= u)%Q → (u < 1)%Q →
  ∃ res, IndexJs.localFallback s u = Some res ∧
         (res = None ↔ ∀ m, ¬ unclaimedEdge s m) ∧
         (∀ m, res = Some m →
               unclaimedEdge s m ∧
               (isGameOver s = false →
                ∃ s', IndexJs.handleMove s (move_type m) (move_r m) (move_c m)
                      = Some (Accepted s'))).
Proof.
  intros Hs%reachable_wf Hu0 Hu1.
  destruct (localFallback_result s u Hs Hu0 Hu1) as (res & Hres & Hlegal & Hnone).
  exists res. split; [done|]. split; [done|].
  intros m Hm%Hlegal. split; [done|]. intros Hplaying.
  destruct (unclaimedEdge_accepted s m Hs Hplaying Hm) as (s' & Hmove & _).
  by exists s'.
Qed.

Lemma localFallback_returns_a_legal_move_witness :
  ∃ res, IndexJs.localFallback corner (3 # 4) = Some res ∧
         (res = None ↔ ∀ m, ¬ unclaimedEdge corner m) ∧
         (∀ m, res = Some m →
               unclaimedEdge corner m ∧
               (isGameOver corner = false →
                ∃ s', IndexJs.handleMove corner (move_type m) (move_r m)
                        (move_c m) = Some (Accepted s'))).
Proof.
  apply (localFallback_returns_a_legal_move 1 1 corner (3 # 4)).
  - apply (reachable_calls 1 1 [mkMove typeH 0 0; mkMove typeV 0 0]
             (createInitialState 1 1)); [apply reach_init|reflexivity].
  - unfold Qle. simpl. lia.
  - unfold Qlt. simpl. lia.
Defined.





(** * The computer's turn in [index.js] *)

Lemma runMove_accepted s type r c s' thinking :
  IndexJs.handleMove s type r c = Some (Accepted s') →
  runMove IndexJs.handleMove {| gameState := s; isAiThinking := thinking |}
    type r c
  = Some {| gameState := s'; isAiThinking := thinking |}.
Proof. intros Hm. unfold runMove. simpl. by rewrite Hm. Qed.

(** X13.  The computer always moves: on a reachable session of a board
    with at least one square, while the game goes on and the computer is
    not already thinking, [triggerAi] of [index.js] plays exactly one
    accepted move and clears the thinking flag, whatever the key, the
    oracle's reply and the random draw in [0, 1) are; a move returned by
    [fetchAiMove] is the move played. *)
Theorem indexjs_triggerAi_always_moves nr nc s haveKey reply u :
  (0 < nr)%nat → (0 < nc)%nat → reachable nr nc s → isGameOver s = false →
  (0 <= u)%Q → (u < 1)%Q →
  ∃ m s',
    IndexJs.triggerAi {| gameState := s; isAiThinking := false |}
      haveKey reply u
    = Some {| gameState := s'; isAiThinking := false |} ∧
    IndexJs.handleMove s (move_type m) (move_r m) (move_c m)
    = Some (Accepted s') ∧
    (∀ m', IndexJs.fetchAiMove s haveKey reply = Some (Some m') → m = m') ∧
    reachable nr nc s' ∧ moveCount s' = moveCount s + 1.
Proof.
  intros Hnr Hnc Hreach Hplaying Hu0 Hu1.
  pose proof (reachable_wf _ _ _ Hreach) as Hs.
  assert (Hplay : ∀ m s',
    IndexJs.handleMove s (move_type m) (move_r m) (move_c m)
    = Some (Accepted s') →
    reachable nr nc s' ∧ moveCount s' = moveCount s + 1).
  { intros m s' Hm. split; [by apply (reach_move nr nc s _ _ _ s' Hreach Hm)|].
    destruct (handleMove_accepted s _ _ _ s' Hs Hm) as [_ Hacc].
    apply (acc_moveCount _ _ _ _ _ Hacc). }
  unfold IndexJs.triggerAi. simpl.
  destruct (indexjs_fetchAiMove_result s haveKey reply Hs) as (res & Hres & Hiff).
  rewrite Hres. simpl. destruct res as [m|].
  - destruct (proj1 (Hiff m) eq_refl) as (_ & Hreply & Hb & Hfree).
    destruct (free_edge_accepted s _ _ _ Hs Hplaying Hb Hfree) as (s' & Hm & _).
    exists m, s'. simpl. split; [by apply runMove_accepted|].
    split; [done|]. split; [|by apply (Hplay m)].
    intros m' Heq. congruence.
  - destruct (localFallback_result s u Hs Hu0 Hu1)
      as (res & Hlocal & Hlegal & Hnone).
    rewrite Hlocal. simpl. destruct res as [m|].
    + destruct (unclaimedEdge_accepted s m Hs Hplaying (Hlegal m eq_refl))
        as (s' & Hm & _).
      exists m, s'. split; [by apply runMove_accepted|].
      split; [done|]. split; [|by apply (Hplay m)].
      intros m' Heq. congruence.
    + exfalso. pose proof (proj1 Hnone eq_refl) as Hempty.
      apply (reachable_over_iff_no_edge nr nc s Hnr Hnc Hreach) in Hempty.
      congruence.
Qed.

Lemma indexjs_triggerAi_always_moves_witness :
  ∃ m s',
    IndexJs.triggerAi {| gameState := twoSides; isAiThinking := false |}
      true (Some (mkMove typeH 0 0)) (3 # 4)
    = Some {| gameState := s'; isAiThinking := false |} ∧
    IndexJs.handleMove twoSides (move_type m) (move_r m) (move_c m)
    = Some (Accepted s') ∧
    (∀ m', IndexJs.fetchAiMove twoSides true (Some (mkMove typeH 0 0))
           = Some (Some m') → m = m') ∧
    reachable 2 2 s' ∧ moveCount s' = moveCount twoSides + 1.
Proof.
  apply (indexjs_triggerAi_always_moves 2 2 twoSides true
           (Some (mkMove typeH 0 0)) (3 # 4)).
  - lia.
  - lia.
  - apply reachable_twoSides.
  - reflexivity.
  - unfold Qle. simpl. lia.
  - unfold Qlt. simpl. lia.
Defined.

(** * The oracle and the computer's turn in [part_000] *)

Lemma part000_handleMove_idle s type r c :
  Part000.handleMove false s type r c = IndexJs.handleMove s type r c.
Proof. done. Qed.

Lemma part000_fetch_nokey retries s oracle rc :
  Part000.fetchAiMoveFrom retries s false oracle rc = Some Part000.Threw.
Proof. by destruct retries. Qed.

Lemma part000_fetch_unfold retries s oracle rc moves :
  availableMoves s = Some moves →
  Part000.fetchAiMoveFrom retries s true oracle rc
  = if decide (length moves = 0%nat) then Some (Part000.Returned None)
    else match oracle rc with
         | Some move =>
             Some (Part000.Returned
                     (if validTarget (linesOf s (isHType (move_type move)))
                           (move_r move) (move_c move)
                      then Some move else index moves 0))
         | None =>
             match retries with
             | S retries' =>
                 Part000.fetchAiMoveFrom retries' s true oracle (rc + 1)
             | O => Some Part000.Threw
             end
         end.
Proof.
  intros Hmoves. destruct retries; simpl; rewrite Hmoves; simpl;
    destruct (decide _); try done; destruct (oracle rc); try done;
    by destruct (validTarget _ _ _).
Qed.

Lemma part000_fetch_legal retries s haveKey oracle rc m :
  wf s →
  Part000.fetchAiMoveFrom retries s haveKey oracle rc
  = Some (Part000.Returned (Some m)) →
  withinBounds s (isHType (move_type m)) (move_r m) (move_c m) ∧
  edgeAt s (isHType (move_type m)) (move_r m) (move_c m) = false.
Proof.
  intros Hs. destruct haveKey; [|by rewrite part000_fetch_nokey].
  pose proof (availableMoves_wf s Hs) as Hmoves.
  revert rc. induction retries as [|retries IH]; intros rc;
    rewrite (part000_fetch_unfold _ s oracle rc _ Hmoves);
    destruct (decide _) as [|Hne]; try done;
    destruct (oracle rc) as [move|]; try done.
  all: try (by apply IH).
  all: destruct (validTarget _ _ _) eqn:Hv; intros [= Hm].
  all: try (subst m; by apply (validTarget_wf s _ _ _ Hs)).
  all: rewrite index_head in Hm; apply head_Some_elem_of in Hm;
    apply (elem_of_availableMoves s _ m Hs Hmoves) in Hm;
    by destruct Hm as (_ & ? & ?).
Qed.

(** X14.  [fetchAiMove] of [part_000] never returns an illegal move: a
    move it returns, from whatever retry count and oracle, is an
    unclaimed edge of the board, which [handleMove] accepts while the
    game goes on and the computer is not marked as thinking. *)
Theorem part000_fetchAiMove_returns_legal_move s haveKey oracle retryCount m :
  wf s →
  Part000.fetchAiMove s haveKey oracle retryCount
  = Some (Part000.Returned (Some m)) →
  withinBounds s (isHType (move_type m)) (move_r m) (move_c m) ∧
  edgeAt s (isHType (move_type m)) (move_r m) (move_c m) = false ∧
  (isGameOver s = false →
   ∃ s', Part000.handleMove false s (move_type m) (move_r m) (move_c m)
         = Some (Accepted s')).
Proof.
  intros Hs Hfetch.
  destruct (part000_fetch_legal _ s haveKey oracle retryCount m Hs Hfetch)
    as [Hb Hfree].
  split; [done|]. split; [done|]. intros Hplaying.
  destruct (free_edge_accepted s _ _ _ Hs Hplaying Hb Hfree) as (s' & Hm & _).
  exists s'. by rewrite part000_handleMove_idle.
Qed.

Lemma part000_fetchAiMove_returns_legal_move_witness :
  let oracle := λ n : Z, if decide (n = 1) then Some (mkMove typeH 0 0)
                         else None in
  ∃ m, Part000.fetchAiMove twoSides true oracle 0
       = Some (Part000.Returned (Some m)) ∧
       withinBounds twoSides (isHType (move_type m)) (move_r m) (move_c m) ∧
       edgeAt twoSides (isHType (move_type m)) (move_r m) (move_c m) = false ∧
       (isGameOver twoSides = false →
        ∃ s', Part000.handleMove false twoSides (move_type m) (move_r m)
                (move_c m) = Some (Accepted s')).
Proof.
  intros oracle. eexists. split; [reflexivity|].
  apply (part000_fetchAiMove_returns_legal_move twoSides true oracle 0);
    [apply (reachable_wf 2 2), reachable_twoSides|reflexivity].
Defined.

Lemma part000_fetchAiMove_first s moves :
  availableMoves s = Some moves →
  ∀ o : Z → option Move,
    Part000.fetchAiMove s true o 0
    = if decide (length moves = 0%nat) then Some (Part000.Returned None)
      else match o 0, o 1 with
           | Some move, _ | None, Some move =>
               Some (Part000.Returned
                       (if validTarget (linesOf s (isHType (move_type move)))
                             (move_r move) (move_c move)
                        then Some move else index moves 0))
           | None, None => Some Part000.Threw
           end.
Proof.
  intros Hmoves o. unfold Part000.fetchAiMove.
  change (Z.to_nat (1 - 0)) with 1%nat.
  rewrite (part000_fetch_unfold 1 s o 0 moves Hmoves).
  destruct (decide _); [done|]. destruct (o 0); [done|].
  rewrite (part000_fetch_unfold 0 s o (0 + 1) moves Hmoves).
  rewrite decide_False by done. change (0 + 1) with 1. by destruct (o 1).
Qed.

(** X15.  [fetchAiMove] of [part_000] and its one retry.  Without an API
    key it throws at once, whatever the board, the oracle and the retry
    count: the client is built before the moves are listed and outside
    the [try].  Called as [fetchAiMove()], it consults the oracle at
    most twice: its result depends on the first two replies only; it
    returns [null] exactly when the key is set and no edge is left to
    claim; it throws exactly when the key is missing, or an edge is left
    and both calls of the oracle failed. *)
Theorem part000_fetchAiMove_retries_once s haveKey oracle :
  wf s →
  (∀ oracle' retryCount,
     Part000.fetchAiMove s false oracle' retryCount = Some Part000.Threw) ∧
  (∀ oracle', oracle' 0 = oracle 0 → oracle' 1 = oracle 1 →
              Part000.fetchAiMove s haveKey oracle' 0
              = Part000.fetchAiMove s haveKey oracle 0) ∧
  (Part000.fetchAiMove s haveKey oracle 0 = Some (Part000.Returned None)
   ↔ haveKey = true ∧ ∀ m, ¬ unclaimedEdge s m) ∧
  (Part000.fetchAiMove s haveKey oracle 0 = Some Part000.Threw
   ↔ haveKey = false ∨
     ((∃ m, unclaimedEdge s m) ∧ oracle 0 = None ∧ oracle 1 = None)).
Proof.
  intros Hs. split.
  { intros oracle' rc. apply part000_fetch_nokey. }
  destruct haveKey; cycle 1.
  { unfold Part000.fetchAiMove. rewrite !part000_fetch_nokey.
    split; [intros; by rewrite part000_fetch_nokey|].
    split; [split; [done|by intros [? _]]|]. split; [by left|done]. }
  pose proof (availableMoves_wf s Hs) as Hmoves.
  set (moves := freeEdges _ _ _ _ ++ freeEdges _ _ _ _) in *.
  pose proof (λ m, elem_of_availableMoves s moves m Hs Hmoves) as Hin.
  pose proof (part000_fetchAiMove_first s moves Hmoves) as Hfetch.
  split; [|split].
  - intros oracle' H0 H1. by rewrite !Hfetch, H0, H1.
  - rewrite Hfetch. destruct moves as [|m0 moves'] eqn:Hm.
    + simpl. split; [|done]. intros _. split; [done|].
      intros m Hm'%Hin. by apply elem_of_nil in Hm'.
    + rewrite decide_False by done. split.
      * destruct (oracle 0) as [move|]; [|destruct (oracle 1) as [move|]];
          try done; by destruct (validTarget _ _ _).
      * intros [_ Hnone]. destruct (Hnone m0). apply Hin. by left.
  - rewrite Hfetch. destruct moves as [|m0 moves'] eqn:Hm.
    + simpl. split; [done|]. intros [|[[m Hm'%Hin] _]]; [done|].
      by apply elem_of_nil in Hm'.
    + rewrite decide_False by done.
      destruct (oracle 0) as [move|]; [|destruct (oracle 1) as [move|]].
      * split; [done|]. by intros [|(_ & ? & _)].
      * split; [done|]. by intros [|(_ & _ & ?)].
      * split; [intros _|done]. right. split; [|done].
        exists m0. apply Hin. by left.
Qed.

Lemma part000_fetchAiMove_retries_once_witness :
  let oracle := λ n : Z, if decide (n = 1) then Some (mkMove typeH 0 0)
                         else None in
  (∀ oracle' retryCount,
     Part000.fetchAiMove corner false oracle' retryCount
     = Some Part000.Threw) ∧
  (∀ oracle', oracle' 0 = oracle 0 → oracle' 1 = oracle 1 →
              Part000.fetchAiMove corner true oracle' 0
              = Part000.fetchAiMove corner true oracle 0) ∧
  (Part000.fetchAiMove corner true oracle 0 = Some (Part000.Returned None)
   ↔ true = true ∧ ∀ m, ¬ unclaimedEdge corner m) ∧
  (Part000.fetchAiMove corner true oracle 0 = Some Part000.Threw
   ↔ true = false ∨
     ((∃ m, unclaimedEdge corner m) ∧ oracle 0 = None ∧ oracle 1 = None)).
Proof.
  intros oracle. apply (part000_fetchAiMove_retries_once corner true oracle).
  apply (reachable_wf 1 1).
  apply (reachable_calls 1 1 [mkMove typeH 0 0; mkMove typeV 0 0]
           (createInitialState 1 1)); [apply reach_init|reflexivity].
Defined.

Lemma part000_makeMove_accepted s type r c s' :
  IndexJs.handleMove s type r c = Some (Accepted s') →
  Part000.makeMove {| gameState := s; isAiThinking := false |} type r c
  = Some {| gameState := s';
            isAiThinking := bool_decide (currentPlayer s' = PLAYER_2)
                            && negb (isGameOver s') |}.
Proof.
  intros Hm. unfold Part000.makeMove. simpl.
  rewrite part000_handleMove_idle, Hm. simpl.
  by destruct (bool_decide _ && negb _).
Qed.

(** X16.  The computer always moves in [part_000] too: on a well-formed
    session with an unclaimed edge, while the game goes on, one turn of
    [triggerAi] plays exactly one accepted move on an unclaimed edge,
    with or without an API key, whatever the oracle replies or fails to
    reply and whatever the random draw in [0, 1) is.  At the end of the
    turn the thinking flag is set exactly when the computer is to move
    again and the game goes on, its next turn having been started by the
    [handleMove] that played the move; otherwise the flag is cleared. *)
Theorem part000_triggerAi_always_moves s thinking haveKey oracle u :
  wf s → isGameOver s = false → (∃ m0, unclaimedEdge s m0) →
  (0 <= u)%Q → (u < 1)%Q →
  ∃ m s',
    Part000.triggerAi {| gameState := s; isAiThinking := thinking |}
      haveKey oracle u
    = Some {| gameState := s';
              isAiThinking := bool_decide (currentPlayer s' = PLAYER_2)
                              && negb (isGameOver s') |} ∧
    Part000.handleMove false s (move_type m) (move_r m) (move_c m)
    = Some (Accepted s') ∧
    edgeAt s (isHType (move_type m)) (move_r m) (move_c m) = false ∧
    edgeAt s' (isHType (move_type m)) (move_r m) (move_c m) = true ∧
    moveCount s' = moveCount s + 1.
Proof.
  intros Hs Hplaying [m0 Hm0] Hu0 Hu1.
  pose proof (availableMoves_wf s Hs) as Hmoves.
  set (moves := freeEdges _ _ _ _ ++ freeEdges _ _ _ _) in *.
  pose proof (λ m, elem_of_availableMoves s moves m Hs Hmoves) as Hin.
  assert (Hne : length moves ≠ 0%nat).
  { intros Hnil%nil_length_inv. apply Hin in Hm0. rewrite Hnil in Hm0.
    by apply elem_of_nil in Hm0. }
  assert (Hplay : ∀ m,
    withinBounds s (isHType (move_type m)) (move_r m) (move_c m) →
    edgeAt s (isHType (move_type m)) (move_r m) (move_c m) = false →
    ∃ s',
      Part000.makeMove {| gameState := s; isAiThinking := false |}
        (move_type m) (move_r m) (move_c m)
      = Some {| gameState := s';
                isAiThinking := bool_decide (currentPlayer s' = PLAYER_2)
                                && negb (isGameOver s') |} ∧
      Part000.handleMove false s (move_type m) (move_r m) (move_c m)
      = Some (Accepted s') ∧
      edgeAt s (isHType (move_type m)) (move_r m) (move_c m) = false ∧
      edgeAt s' (isHType (move_type m)) (move_r m) (move_c m) = true ∧
      moveCount s' = moveCount s + 1).
  { intros m Hb Hfree.
    destruct (free_edge_accepted s _ _ _ Hs Hplaying Hb Hfree) as (s' & Hm & Hacc).
    exists s'. split; [by apply part000_makeMove_accepted|].
    split; [by rewrite part000_handleMove_idle|]. split; [done|].
    split; [|apply (acc_moveCount _ _ _ _ _ Hacc)].
    rewrite (acc_edge _ _ _ _ _ Hacc). by rewrite bool_decide_eq_true_2. }
  assert (Hrandom :
    ∃ m, index moves (randomIndex u (length moves)) = Some m ∧
         withinBounds s (isHType (move_type m)) (move_r m) (move_c m) ∧
         edgeAt s (isHType (move_type m)) (move_r m) (move_c m) = false).
  { destruct (index_is_Some moves (randomIndex u (length moves))) as [m Hm];
      [apply randomIndex_range; (done || lia)|].
    exists m. split; [done|]. apply index_Some in Hm as [_ Hm].
    apply list_elem_of_lookup_2, Hin in Hm. by destruct Hm as (_ & Hb & Hfree). }
  unfold Part000.triggerAi. simpl.
  destruct (Part000.fetchAiMove s haveKey oracle 0) as [[[m|]|]|] eqn:Hfetch;
    simpl.
  - destruct (part000_fetch_legal _ s haveKey oracle 0 m Hs Hfetch)
      as [Hb Hfree].
    destruct (Hplay m Hb Hfree) as (s' & Hmake & Hrest). by exists m, s'.
  - exfalso. destruct haveKey;
      [|unfold Part000.fetchAiMove in Hfetch;
        by rewrite part000_fetch_nokey in Hfetch].
    rewrite (part000_fetchAiMove_first s moves Hmoves) in Hfetch.
    rewrite decide_False in Hfetch by done.
    destruct moves as [|m1 moves']; [done|].
    destruct (oracle 0) as [move|]; [|destruct (oracle 1) as [move|]];
      try done; by destruct (validTarget _ _ _).
  - rewrite Hmoves. simpl. rewrite decide_True by lia.
    destruct Hrandom as (m & Hm & Hb & Hfree). rewrite Hm.
    destruct (Hplay m Hb Hfree) as (s' & Hmake & Hrest). by exists m, s'.
  - exfalso. destruct haveKey;
      [|unfold Part000.fetchAiMove in Hfetch;
        by rewrite part000_fetch_nokey in Hfetch].
    rewrite (part000_fetchAiMove_first s moves Hmoves) in Hfetch.
    destruct (decide _); [done|].
    by destruct (oracle 0); [|destruct (oracle 1)].
Qed.

Lemma part000_triggerAi_always_moves_witness :
  ∃ m s',
    Part000.triggerAi {| gameState := twoSides; isAiThinking := true |}
      false (λ _, None) (3 # 4)
    = Some {| gameState := s';
              isAiThinking := bool_decide (currentPlayer s' = PLAYER_2)
                              && negb (isGameOver s') |} ∧
    Part000.handleMove false twoSides (move_type m) (move_r m) (move_c m)
    = Some (Accepted s') ∧
    edgeAt twoSides (isHType (move_type m)) (move_r m) (move_c m) = false ∧
    edgeAt s' (isHType (move_type m)) (move_r m) (move_c m) = true ∧
    moveCount s' = moveCount twoSides + 1.
Proof.
  apply (part000_triggerAi_always_moves twoSides true false (λ _, None)
           (3 # 4)).
  - apply (reachable_wf 2 2), reachable_twoSides.
  - reflexivity.
  - exists (mkMove typeH 2 0). unfold unclaimedEdge. simpl.
    split; [by left|]. split; [lia|reflexivity].
  - unfold Qle. simpl. lia.
  - unfold Qlt. simpl. lia.
Defined.

(** * The line buttons of [render] *)

Lemma elem_of_buttonsOf type g lines b :
  b ∈ buttonsOf type g lines ↔
  ∃ (r c : nat) row (active : bool),
    lines !! r = Some row ∧ row !! c = Some active ∧
    b = mkButton (mkMove (JsString type) (Z.of_nat r) (Z.of_nat c))
          (negb (negb active
                 && bool_decide (currentPlayer (gameState g) = PLAYER_1)
                 && negb (isAiThinking g)
                 && negb (isGameOver (gameState g)))).
Proof.
  unfold buttonsOf. rewrite list_elem_of_join. split.
  - intros (bs & Hb & Hbs).
    apply elem_of_lookup_imap in Hbs as (r & row & -> & Hrow).
    apply elem_of_lookup_imap in Hb as (c & active & -> & Hcell).
    by exists r, c, row, active.
  - intros (r & c & row & active & Hrow & Hcell & ->).
    set (button := λ (r c : nat) (active : bool),
      mkButton (mkMove (JsString type) (Z.of_nat r) (Z.of_nat c))
        (negb (negb active
               && bool_decide (currentPlayer (gameState g) = PLAYER_1)
               && negb (isAiThinking g)
               && negb (isGameOver (gameState g))))).
    exists (imap (button r) row). split.
    + apply (elem_of_lookup_imap_2 (button r) row active c Hcell).
    + apply (elem_of_lookup_imap_2 (λ r row, imap (button r) row) lines row r
               Hrow).
Qed.

Lemma elem_of_lineButtons g b :
  wf (gameState g) →
  b ∈ lineButtons g ↔
  ∃ isH r c,
    withinBounds (gameState g) isH r c ∧
    b = mkButton (mkMove (if isH then typeH else typeV) r c)
          (negb (negb (edgeAt (gameState g) isH r c)
                 && bool_decide (currentPlayer (gameState g) = PLAYER_1)
                 && negb (isAiThinking g)
                 && negb (isGameOver (gameState g)))).
Proof.
  intros Hs. unfold lineButtons. rewrite elem_of_app, !elem_of_buttonsOf.
  assert (Hcell : ∀ isH (r c : nat) row active,
    linesOf (gameState g) isH !! r = Some row → row !! c = Some active →
    withinBounds (gameState g) isH (Z.of_nat r) (Z.of_nat c) ∧
    edgeAt (gameState g) isH (Z.of_nat r) (Z.of_nat c) = active).
  { intros isH r c row active Hrow Hact.
    pose proof (get_of_lookup _ r c row active Hrow Hact) as Hget.
    split; [|unfold edgeAt; by rewrite Hget].
    apply withinBounds_outOfBounds, (inBounds_range _ isH _ _ Hs).
    apply (get_inside _ _ _ _ _ _ (wf_lines _ isH Hs) Hget). }
  split.
  - intros [(r & c & row & active & Hrow & Hact & ->)
           |(r & c & row & active & Hrow & Hact & ->)].
    + destruct (Hcell true r c row active Hrow Hact) as [Hb <-].
      by exists true, (Z.of_nat r), (Z.of_nat c).
    + destruct (Hcell false r c row active Hrow Hact) as [Hb <-].
      by exists false, (Z.of_nat r), (Z.of_nat c).
  - intros (isH & r & c & Hb & ->).
    pose proof (proj1 (inBounds_range _ isH r c Hs)
                  (proj1 (withinBounds_outOfBounds _ _ _ _) Hb)) as [Hr Hc].
    destruct (shaped_get _ _ _ r c (wf_lines _ isH Hs) Hr Hc) as [active Hget].
    destruct (get_lookup _ _ _ _ Hget) as (row & Hrow & Hact).
    assert (Hedge : edgeAt (gameState g) isH r c = active)
      by (unfold edgeAt; by rewrite Hget).
    rewrite Hedge.
    destruct isH; [left|right]; exists (Z.to_nat r), (Z.to_nat c), row, active;
      rewrite !Z2Nat.id by lia; done.
Qed.

(** X17.  [render] writes one button for every edge of the board, and a
    button is enabled exactly when the human is to move, the computer is
    not thinking, and [handleMove] accepts the move of its [onclick]. *)
Theorem render_enables_the_legal_moves nr nc s thinking :
  reachable nr nc s →
  let g := {| gameState := s; isAiThinking := thinking |} in
  (∀ m, (∃ d, mkButton m d ∈ lineButtons g) ↔
        (move_type m = typeH ∨ move_type m = typeV) ∧
        withinBounds s (isHType (move_type m)) (move_r m) (move_c m)) ∧
  (∀ b, b ∈ lineButtons g →
        disabled b = false ↔
        currentPlayer s = PLAYER_1 ∧ thinking = false ∧
        ∃ s', IndexJs.handleMove s (move_type (onclick b)) (move_r (onclick b))
                (move_c (onclick b)) = Some (Accepted s')).
Proof.
  intros Hs%reachable_wf g.
  pose proof (elem_of_lineButtons g) as Hin. simpl in Hin.
  specialize (λ b, Hin b Hs). split.
  - intros m. split.
    + intros (d & (isH & r & c & Hb & Heq)%Hin). injection Heq as -> _.
      destruct isH; simpl; auto.
    + intros ([Ht|Ht] & Hb); destruct m as [type r c]; simpl in *; subst type;
        eexists; apply Hin; [exists true, r, c|exists false, r, c]; done.
  - intros b (isH & r & c & Hb & ->)%Hin. simpl.
    assert (HisH : isHType (move_type (mkMove (if isH then typeH else typeV) r c))
                   = isH) by (by destruct isH).
    simpl in HisH. rewrite negb_false_iff, !andb_true_iff, !negb_true_iff.
    rewrite bool_decide_eq_true.
    destruct (handleMove_wf s (if isH then typeH else typeV) r c Hs)
      as [[Hwhy Hrej]|(s' & Hm & Hov & Hacc)]; rewrite HisH in *.
    + rewrite Hrej. split.
      * intros [[[Hfree Hp] Ht] Hov].
        destruct Hwhy as [?|[Hout|?]]; [congruence| |congruence].
        by apply withinBounds_outOfBounds in Hb.
      * by intros (_ & _ & s' & ?).
    + rewrite Hm. pose proof (acc_free _ _ _ _ _ Hacc) as Hfree. split.
      * intros [[[_ Hp] Ht] _]. split; [done|]. split; [done|]. by exists s'.
      * intros (Hp & Ht & _). done.
Qed.

Lemma render_enables_the_legal_moves_witness :
  let g := {| gameState := twoSides; isAiThinking := false |} in
  (∀ m, (∃ d, mkButton m d ∈ lineButtons g) ↔
        (move_type m = typeH ∨ move_type m = typeV) ∧
        withinBounds twoSides (isHType (move_type m)) (move_r m) (move_c m)) ∧
  (∀ b, b ∈ lineButtons g →
        disabled b = false ↔
        currentPlayer twoSides = PLAYER_1 ∧ false = false ∧
        ∃ s', IndexJs.handleMove twoSides (move_type (onclick b))
                (move_r (onclick b)) (move_c (onclick b))
              = Some (Accepted s')).
Proof.
  exact (render_enables_the_legal_moves 2 2 twoSides false reachable_twoSides).
Defined.

(** * Runs of calls *)

(** X18.  Calls of [handleMove] never raise and never reshape the board:
    from a reachable session every sequence of calls, with any types and
    any integer coordinates, runs to the end, and the three matrices
    keep the sizes that [createInitialState] gave them. *)
Theorem calls_never_raise nr nc s ms :
  reachable nr nc s →
  ∃ s', calls s ms = Some s' ∧ reachable nr nc s' ∧
        rows s' = Z.of_nat nr ∧ cols s' = Z.of_nat nc ∧
        shaped (horizontalLines s') (Z.of_nat nr + 1) (Z.of_nat nc) ∧
        shaped (verticalLines s') (Z.of_nat nr) (Z.of_nat nc + 1) ∧
        shaped (squares s') (Z.of_nat nr) (Z.of_nat nc).
Proof.
  intros Hreach.
  assert (Hrun : ∃ s', calls s ms = Some s' ∧ reachable nr nc s').
  { unfold calls. revert s Hreach. induction ms as [|m ms IH]; intros s Hreach.
    - by exists s.
    - cbn [forEach].
      destruct (handleMove_wf s (move_type m) (move_r m) (move_c m)
                  (reachable_wf _ _ _ Hreach))
        as [[_ Hrej]|(s1 & Hacc & _ & _)].
      + rewrite Hrej. simpl. by apply IH.
      + rewrite Hacc. simpl. apply IH.
        by apply (reach_move nr nc s _ _ _ s1 Hreach Hacc). }
  destruct Hrun as (s' & Hcalls & Hreach'). exists s'.
  pose proof (reachable_wf _ _ _ Hreach') as Hs'.
  destruct (reachable_dims _ _ _ Hreach') as [Hr Hc].
  split; [done|]. split; [done|]. split; [done|]. split; [done|].
  rewrite <- Hr, <- Hc. split; [|split]; apply Hs'.
Qed.

Lemma calls_never_raise_witness :
  ∃ s', calls twoSides
          [mkMove typeH (-1) 0; mkMove JsUndefined 7 7; mkMove typeV 1 2;
           mkMove typeV 1 2]
        = Some s' ∧ reachable 2 2 s' ∧
        rows s' = Z.of_nat 2 ∧ cols s' = Z.of_nat 2 ∧
        shaped (horizontalLines s') (Z.of_nat 2 + 1) (Z.of_nat 2) ∧
        shaped (verticalLines s') (Z.of_nat 2) (Z.of_nat 2 + 1) ∧
        shaped (squares s') (Z.of_nat 2) (Z.of_nat 2).
Proof.
  exact (calls_never_raise 2 2 twoSides _ reachable_twoSides).
Defined.

(** X19.  Between two calls no square is waiting for an owner: on every
    reachable session [checkSquareCompletion] answers [false] for every
    pair of coordinates. *)
Theorem checkSquareCompletion_false_at_rest nr nc s i j :
  reachable nr nc s → checkSquareCompletion s i j = Some false.
Proof.
  intros Hreach. pose proof (reachable_wf _ _ _ Hreach) as Hs.
  rewrite (checkSquareCompletion_wf s i j Hs). f_equal.
  apply not_true_is_false. rewrite !andb_true_iff, !bool_decide_eq_true.
  intros [[Hin Hown] Hfull].
  by apply (reachable_owned_iff_complete nr nc s i j Hreach Hin) in Hfull.
Qed.

Lemma checkSquareCompletion_false_at_rest_witness :
  ∃ s, calls doubleCross [mkMove typeV 0 1] = Some s ∧
       checkSquareCompletion s 0 1 = Some false ∧
       getSquareSideCount s 0 1 = Some 4.
Proof.
  eexists. split; [reflexivity|]. split; [|reflexivity].
  apply (checkSquareCompletion_false_at_rest 1 2).
  apply (reachable_calls 1 2 [mkMove typeV 0 1] doubleCross);
    [apply reachable_doubleCross|reflexivity].
Defined.
